(** * MovieVis: the default layout provider

    A shallow embedding of [src/MovieVis/src/DefaultLayoutProvider.cpp] and
    the properties of its layout computation.

    - A C++ [double] is a binary64 float of the kernel ([PrimFloat.float]):
      every arithmetic expression below rounds as IEEE 754 double arithmetic
      does.
    - A [shared_ptr<ActorCurve>] is an index into the provider's [store];
      the two index maps hold such references, so a curve rewritten through
      the movie-pair map is seen rewritten through the actor map as well.
    - A [weak_ptr] is modelled by what [lock()] gives: [None] when expired.
      Dereferencing a null pointer stops the computation: the functions of
      the provider run in a state monad with failure. *)

From Stdlib Require Import ZArith Floats Sorted.
From stdpp Require Import gmap list.

Set Warnings "-inexact-float".

(** ** Numbers *)

Abbreviation double := float.

(** Conversion of an unsigned integer value to [double]. *)
Definition of_uint (n : Z) : double := PrimFloat.of_uint63 (Uint63.of_Z n).

(** Modelled from the spec: [peek::sign] of [Numerics.hpp] is not part of the
    sources; the clamp of section 4.2 "preserves sign", so [sign] gives -1, 0
    or 1 with the sign of its argument. *)
Definition sign (d : double) : double :=
  if PrimFloat.ltb d 0 then (-1)%float
  else if PrimFloat.ltb 0 d then 1%float
  else 0%float.

(** ** Geometric primitives *)

(** Modelled from the spec: [Point3d] and [Vector3d] are not part of the
    sources; they are triples of doubles with componentwise arithmetic, and
    [normalize] scales a vector to unit length (section 4.4). *)
Module Point3d.
Record t : Type := mk { x : double; y : double; z : double }.
End Point3d.

Module Vector3d.
Record t : Type := mk { x : double; y : double; z : double }.

Definition length (v : t) : double :=
  PrimFloat.sqrt (x v * x v + y v * y v + z v * z v)%float.

Definition normalize (v : t) : t :=
  let l := length v in
  mk (x v / l)%float (y v / l)%float (z v / l)%float.

Definition scale (k : double) (v : t) : t :=
  mk (k * x v)%float (k * y v)%float (k * z v)%float.
End Vector3d.

Definition point_sub (a b : Point3d.t) : Vector3d.t :=
  Vector3d.mk (Point3d.x a - Point3d.x b)%float
              (Point3d.y a - Point3d.y b)%float
              (Point3d.z a - Point3d.z b)%float.

Definition point_add (p : Point3d.t) (v : Vector3d.t) : Point3d.t :=
  Point3d.mk (Point3d.x p + Vector3d.x v)%float
             (Point3d.y p + Vector3d.y v)%float
             (Point3d.z p + Vector3d.z v)%float.

Record BezierCurve : Type := mkBezierCurve {
  getP0 : Point3d.t;
  getP1 : Point3d.t;
  getP2 : Point3d.t;
  getP3 : Point3d.t
}.

Definition lerp (a b : Point3d.t) (t : double) : Point3d.t :=
  point_add a (Vector3d.scale t (point_sub b a)).

(** Modelled from the spec: [BezierCurve::subdivideAt] is not part of the
    sources; section 3 describes it as de Casteljau subdivision at [t], giving
    the two curves that meet at the point of parameter [t]. *)
Definition subdivideAt (c : BezierCurve) (t : double) : BezierCurve * BezierCurve :=
  let p01 := lerp (getP0 c) (getP1 c) t in
  let p12 := lerp (getP1 c) (getP2 c) t in
  let p23 := lerp (getP2 c) (getP3 c) t in
  let p012 := lerp p01 p12 t in
  let p123 := lerp p12 p23 t in
  let p0123 := lerp p012 p123 t in
  (mkBezierCurve (getP0 c) p01 p012 p0123, mkBezierCurve p0123 p123 p23 (getP3 c)).

(** ** Dates, movies and persons *)

(** What the provider reads of a [boost::gregorian::date]: its [year()] and
    its [day_of_year()], which counts from 1 (January 1st) to 365 or 366. *)
Record date : Type := mkDate { year : Z; day_of_year : Z }.

Definition is_leap_year (y : Z) : bool :=
  (y mod 4 =? 0)%Z && (negb (y mod 100 =? 0)%Z || (y mod 400 =? 0)%Z).

Definition days_in_year (y : Z) : Z := if is_leap_year y then 366%Z else 365%Z.

Definition valid_date (d : date) : Prop :=
  (1 ≤ day_of_year d ≤ days_in_year (year d))%Z.

(** Chronological order of dates. *)
Definition date_lt (d1 d2 : date) : Prop :=
  (year d1 < year d2 ∨ (year d1 = year d2 ∧ day_of_year d1 < day_of_year d2))%Z.

Definition date_ltb (d1 d2 : date) : bool :=
  (year d1 <? year d2)%Z || ((year d1 =? year d2)%Z && (day_of_year d1 <? day_of_year d2)%Z).

Abbreviation PersonId := nat.

(** A movie: its identity, its release date and what locking its weak
    director reference gives ([None] when the reference has expired). *)
Record Movie : Type := mkMovie {
  movieId : nat;
  getReleaseDate : date;
  getDirector : option PersonId
}.

(** A person as an actor: its identity and the weak references to the movies
    it starred in, each as what [lock()] gives. *)
Record Person : Type := mkPerson {
  personId : PersonId;
  getMoviesStarredIn : list (option Movie)
}.

Record Model : Type := mkModel { getActors : list Person }.

(** Modelled from the spec: class [MoviePair] is not part of the sources;
    section 3 makes it an unordered pair of movie identities used as a grouping
    key, equal and hashed alike in both orders. The object keeps the two movies
    in the order of construction; [pairKey] is the order-free key. *)
Record MoviePair : Type := mkMoviePair {
  getFirstMovie : Movie;
  getSecondMovie : Movie
}.

Definition pairKey (mp : MoviePair) : nat * nat :=
  let a := movieId (getFirstMovie mp) in
  let b := movieId (getSecondMovie mp) in
  (Nat.min a b, Nat.max a b).

(** Modelled from the spec: class [ActorCurve] is not part of the sources;
    section 3 has it hold the actor and one curve when built, two after
    [setCurves]. *)
Record ActorCurve : Type := mkActorCurve {
  getActor : PersonId;
  getFirstCurve : BezierCurve;
  getSecondCurve : option BezierCurve
}.

Definition newActorCurve (actor : PersonId) (c : BezierCurve) : ActorCurve :=
  mkActorCurve actor c None.

Definition setCurves (ac : ActorCurve) (b1 b2 : BezierCurve) : ActorCurve :=
  mkActorCurve (getActor ac) b1 (Some b2).

(** ** The provider and its monad *)

Abbreviation CurveRef := nat.

Record DefaultLayoutProvider : Type := mkProvider {
  directorXPositions : gmap (option PersonId) double;
  actorCurvesByActor : gmap PersonId (list CurveRef);
  actorCurvesByMoviePair : gmap (nat * nat) (MoviePair * list CurveRef);
  store : list ActorCurve
}.

(** The provider as its constructor leaves it before [init()]. *)
Definition emptyProvider : DefaultLayoutProvider := mkProvider ∅ ∅ ∅ [].

Definition M (A : Type) : Type :=
  DefaultLayoutProvider → option (A * DefaultLayoutProvider).

Definition ret {A : Type} (a : A) : M A := λ st, Some (a, st).

Definition bind {A B : Type} (m : M A) (k : A → M B) : M B :=
  λ st, match m st with
        | Some (a, st') => k a st'
        | None => None
        end.

(** A null pointer is dereferenced. *)
Definition crash {A : Type} : M A := λ _, None.

Notation "'let*' x ':=' m 'in' k" := (bind m (λ x, k))
  (at level 10, x pattern, m at level 100, k at level 200).

Definition exec {A : Type} (m : M A) (st : DefaultLayoutProvider) : option DefaultLayoutProvider :=
  snd <$> m st.

(** ** Coordinate mapper *)

Definition EARLIEST_YEAR : Z := 1985.
Definition LATEST_YEAR : Z := 2009.
Definition UNITS_PER_YEAR : double := (5.0 / of_uint (LATEST_YEAR - EARLIEST_YEAR))%float.

(** [(double) theDate.year() + (double) theDate.day_of_year() / 365.0] *)
Definition dateAsYear (theDate : date) : double :=
  (of_uint (year theDate) + of_uint (day_of_year theDate) / 365.0)%float.

Definition getDateYPosition (theDate : date) : double :=
  let yearSpan := (of_uint (LATEST_YEAR - EARLIEST_YEAR) * UNITS_PER_YEAR)%float in
  let yearsAfterEarliestYear := (dateAsYear theDate - of_uint EARLIEST_YEAR)%float in
  (yearsAfterEarliestYear * UNITS_PER_YEAR - yearSpan / 2)%float.

Definition DISTANCE : double := 4.0%float.

(** Modelled from the spec: [Person::hashConf], which hashes and compares the
    keys of the table, is not part of the sources; section 3 makes a person an
    identity with a hashable, comparable reference, so the table is keyed by the
    [shared_ptr<Person>] itself, the null pointer included: the key of an
    expired director reference is [None]. *)
Definition getDirectorXPosition (director : option PersonId) : M double :=
  λ st,
    match directorXPositions st !! director with
    | None =>
        let xPosition := (DISTANCE * of_uint (Z.of_nat (size (directorXPositions st))))%float in
        Some (xPosition,
              mkProvider (<[director := xPosition]> (directorXPositions st))
                         (actorCurvesByActor st) (actorCurvesByMoviePair st) (store st))
    | Some xPosition => Some (xPosition, st)
    end.

(** [movie] is a [shared_ptr<Movie>]; it is dereferenced without a check. *)
Definition getMoviePoint (movie : option Movie) (z : double) : M Point3d.t :=
  match movie with
  | None => crash
  | Some m =>
      let* x := getDirectorXPosition (getDirector m) in
      let y := getDateYPosition (getReleaseDate m) in
      ret (Point3d.mk x y z)
  end.

(** ** Layout index *)

Definition getActorCurves (actor : PersonId) (st : DefaultLayoutProvider) : list CurveRef :=
  default [] (actorCurvesByActor st !! actor).

(** [new ActorCurve(...)] held by a [shared_ptr]: a fresh cell of the store. *)
Definition allocActorCurve (ac : ActorCurve) : M CurveRef :=
  λ st, Some (length (store st),
              mkProvider (directorXPositions st) (actorCurvesByActor st)
                         (actorCurvesByMoviePair st) (store st ++ [ac])).

Definition addActorCurve (actorCurve : CurveRef) (moviePair : MoviePair) : M unit :=
  λ st,
    match store st !! actorCurve with
    | None => None
    | Some ac =>
        let actor := getActor ac in
        let byActor :=
          match actorCurvesByActor st !! actor with
          | None => <[actor := [actorCurve]]> (actorCurvesByActor st)
          | Some v => <[actor := v ++ [actorCurve]]> (actorCurvesByActor st)
          end in
        let byPair :=
          match actorCurvesByMoviePair st !! pairKey moviePair with
          | None => <[pairKey moviePair := (moviePair, [actorCurve])]> (actorCurvesByMoviePair st)
          | Some (mp, v) =>
              <[pairKey moviePair := (mp, v ++ [actorCurve])]> (actorCurvesByMoviePair st)
          end in
        Some (tt, mkProvider (directorXPositions st) byActor byPair (store st))
    end.

(** ** Curve builder *)

Definition MAX_DELTA : double := 5.0%float.

(** Modelled from the spec: [Movie::weakPtrReleaseDateSortPredicate] is not
    part of the sources; section 4.2 sorts by release date ascending and keeps
    the source order of ties. The comparison dereferences both movies.
    [std::sort] itself leaves the order of movies with equal release dates
    unspecified; the order below is the one of section 4.2, one of those
    [std::sort] may give. The properties of the walk use that the sorted list
    is a permutation of the actor's movies, and nothing else of its order. *)
Definition releaseDateBefore (a b : Movie) : bool :=
  date_ltb (getReleaseDate a) (getReleaseDate b).

Fixpoint insertByReleaseDate (m : Movie) (l : list Movie) : list Movie :=
  match l with
  | [] => [m]
  | m' :: l' =>
      if releaseDateBefore m' m then m' :: insertByReleaseDate m l' else m :: l
  end.

Definition sortByReleaseDate (l : list Movie) : list Movie :=
  foldr insertByReleaseDate [] l.

(** [sort(begin, end, predicate)] on the weak references: a range of fewer than
    two elements is never compared; otherwise every element is compared, and
    the comparison dereferences it. *)
Definition sortMovies (l : list (option Movie)) : option (list (option Movie)) :=
  match l with
  | [] | [_] => Some l
  | _ => (λ ms, Some <$> sortByReleaseDate ms) <$> mapM id l
  end.

Definition clampDelta (nominalDelta : double) : double :=
  if PrimFloat.leb (PrimFloat.abs nominalDelta) MAX_DELTA
  then nominalDelta
  else (MAX_DELTA * sign nominalDelta)%float.

(** The curve of one step of the walk: [damp] tells whether the two director
    references compared equal. *)
Definition stepCurve (damp : bool) (lastAnchor anchor : Point3d.t) : BezierCurve :=
  let nominalDelta := (Point3d.y anchor - Point3d.y lastAnchor)%float in
  let nominalDelta := if damp then (nominalDelta / 3.0)%float else nominalDelta in
  let delta := clampDelta nominalDelta in
  let handle1 := Point3d.mk (Point3d.x lastAnchor) (Point3d.y lastAnchor + delta)%float
                            (Point3d.z lastAnchor) in
  let handle2 := Point3d.mk (Point3d.x anchor) (Point3d.y anchor - delta)%float
                            (Point3d.z anchor) in
  mkBezierCurve lastAnchor handle1 handle2 anchor.

(** [a->getDirector().lock() == b->getDirector().lock()]: two expired
    references both lock to the null pointer. *)
Definition sameDirector (a b : Movie) : bool :=
  bool_decide (getDirector a = getDirector b).

(** The [for] loop of [initActorCurves]. [lastAnchor] advances at the end of
    the body; [lastMoviePtr] is assigned before the loop and nowhere in it. *)
Fixpoint walkMovies (actor : PersonId) (z : double) (lastMoviePtr : Movie)
    (lastAnchor : Point3d.t) (rest : list (option Movie)) : M unit :=
  match rest with
  | [] => ret tt
  | moviePtr :: rest' =>
      let* anchor := getMoviePoint moviePtr z in
      match moviePtr with
      | None => crash
      | Some movie =>
          let damp := sameDirector lastMoviePtr movie in
          let moviePair := mkMoviePair lastMoviePtr movie in
          let* actorCurve :=
            allocActorCurve (newActorCurve actor (stepCurve damp lastAnchor anchor)) in
          let* _ := addActorCurve actorCurve moviePair in
          walkMovies actor z lastMoviePtr anchor rest'
      end
  end.

Definition initActorCurves (actor : Person) : M unit :=
  let moviesStarredIn := getMoviesStarredIn actor in
  if (length moviesStarredIn =? 0)%nat then ret tt
  else
    let z := 0%float in
    match sortMovies moviesStarredIn with
    | None => crash
    | Some [] => crash
    | Some (first :: rest) =>
        let* lastAnchor := getMoviePoint first z in
        match first with
        | None => crash
        | Some lastMoviePtr => walkMovies (personId actor) z lastMoviePtr lastAnchor rest
        end
    end.

(** ** Overlap resolver *)

Definition offsetIncrement : double := 0.05%float.

Definition UINT_MAX1 : Z := 2 ^ 32.

(** [actorIndex] is an [unsigned int]. *)
Definition offsetAmount (actorIndex : Z) : double :=
  if (actorIndex =? 0)%Z then 0%float
  else (of_uint (((actorIndex + 1) mod UINT_MAX1) / 2) * offsetIncrement
        * (if (actorIndex mod 2 =? 0)%Z then (-1.0) else 1.0))%float.

(** The two halves an actor curve is given, for an offset vector. *)
Definition divergedCurves (offsetVector : Vector3d.t) (c : BezierCurve)
    : BezierCurve * BezierCurve :=
  let bp := subdivideAt c 0.5%float in
  let b1 := fst bp in
  let b2 := snd bp in
  (mkBezierCurve (getP0 b1) (getP1 b1)
                 (point_add (getP2 b1) offsetVector) (point_add (getP3 b1) offsetVector),
   mkBezierCurve (point_add (getP0 b2) offsetVector) (point_add (getP1 b2) offsetVector)
                 (getP2 b2) (getP3 b2)).

Definition divergeCurve (offsetDirection : Vector3d.t) (actorIndex : Z) (ac : ActorCurve)
    : ActorCurve :=
  let offsetVector := Vector3d.scale (offsetAmount actorIndex) offsetDirection in
  let nb := divergedCurves offsetVector (getFirstCurve ac) in
  setCurves ac (fst nb) (snd nb).

(** [actorCurvePtr->setCurves(...)]: the cell of the store is rewritten. *)
Definition updateActorCurve (r : CurveRef) (f : ActorCurve → ActorCurve) : M unit :=
  λ st,
    match store st !! r with
    | None => None
    | Some ac =>
        Some (tt, mkProvider (directorXPositions st) (actorCurvesByActor st)
                             (actorCurvesByMoviePair st) (<[r := f ac]> (store st)))
    end.

(** The inner loop over the curves of one movie pair. *)
Fixpoint divergeGroup (offsetDirection : Vector3d.t) (actorIndex : Z)
    (curves : list CurveRef) : M unit :=
  match curves with
  | [] => ret tt
  | actorCurvePtr :: rest =>
      let* _ := updateActorCurve actorCurvePtr (divergeCurve offsetDirection actorIndex) in
      divergeGroup offsetDirection ((actorIndex + 1) mod UINT_MAX1) rest
  end.

Definition offsetDirectionOf (m1 m2 : Point3d.t) : Vector3d.t :=
  let v := point_sub m2 m1 in
  Vector3d.normalize (Vector3d.mk (- Vector3d.y v)%float (Vector3d.x v) (Vector3d.z v)).

(** The body of the outer loop, for one entry of the movie-pair map. *)
Definition divergePair (entry : nat * nat * (MoviePair * list CurveRef)) : M unit :=
  let moviePairPtr := fst (snd entry) in
  let actorCurveVectorPtr := snd (snd entry) in
  if (length actorCurveVectorPtr <=? 1)%nat then ret tt
  else
    let* m1 := getMoviePoint (Some (getFirstMovie moviePairPtr)) 0%float in
    let* m2 := getMoviePoint (Some (getSecondMovie moviePairPtr)) 0%float in
    divergeGroup (offsetDirectionOf m1 m2) 0 actorCurveVectorPtr.

Fixpoint divergePairs (entries : list (nat * nat * (MoviePair * list CurveRef)))
    : M unit :=
  match entries with
  | [] => ret tt
  | e :: rest => let* _ := divergePair e in divergePairs rest
  end.

Definition divergeOverlappingCurves : M unit :=
  λ st, divergePairs (map_to_list (actorCurvesByMoviePair st)) st.

Fixpoint initActors (actors : list Person) : M unit :=
  match actors with
  | [] => ret tt
  | actor :: rest => let* _ := initActorCurves actor in initActors rest
  end.

Definition init (model : Model) : M unit :=
  let* _ := initActors (getActors model) in
  divergeOverlappingCurves.

(** The provider a model is laid out into, when the computation ends. *)
Definition layout (model : Model) : option DefaultLayoutProvider :=
  exec (init model) emptyProvider.

(** * Vocabulary of the properties *)

(** ** Binary64 numbers *)

(** [p] shifted left by [k] bits, for a positive [k]. *)
Definition shiftp (p : positive) (k : Z) : positive :=
  match k with
  | Zpos k' => Pos.iter xO p k'
  | _ => p
  end.

(** The order of two comparisons, the second deciding when the first is a tie. *)
Definition cmp_then (c1 c2 : comparison) : comparison :=
  match c1 with Eq => c2 | _ => c1 end.

(** ** Date axis *)

(** The calibration window of the date axis, as years. *)
Definition inWindow (d : date) : Prop :=
  (EARLIEST_YEAR ≤ year d ≤ LATEST_YEAR)%Z.

(** [d1] is the last day of a leap year and [d2] the first day of the next
    year. *)
Definition leapYearTurn (d1 d2 : date) : Prop :=
  is_leap_year (year d1) = true ∧ day_of_year d1 = 366%Z
  ∧ year d2 = (year d1 + 1)%Z ∧ day_of_year d2 = 1%Z.

Definition leapYearTurnb (d1 d2 : date) : bool :=
  is_leap_year (year d1) && (day_of_year d1 =? 366)%Z
  && (year d2 =? year d1 + 1)%Z && (day_of_year d2 =? 1)%Z.

(** How the positions of two dates compare when [d1] is the earlier one. *)
Definition axisOrdered (d1 d2 : date) : Prop :=
  date_lt d1 d2
  ∧ PrimFloat.leb (getDateYPosition d1) (getDateYPosition d2) = true
  ∧ (PrimFloat.ltb (getDateYPosition d1) (getDateYPosition d2) = true
     ∨ (leapYearTurn d1 d2
        ∧ PrimFloat.eqb (getDateYPosition d1) (getDateYPosition d2) = true)).

Definition axisOrderedb (d1 d2 : date) : bool :=
  date_ltb d1 d2
  && PrimFloat.leb (getDateYPosition d1) (getDateYPosition d2)
  && (PrimFloat.ltb (getDateYPosition d1) (getDateYPosition d2)
      || (leapYearTurnb d1 d2
          && PrimFloat.eqb (getDateYPosition d1) (getDateYPosition d2))).

(** The [n] integers from [a] on. *)
Definition zrange (a : Z) (n : nat) : list Z := (λ i, (a + Z.of_nat i)%Z) <$> seq 0 n.

Definition datesOfYear (y : Z) : list date :=
  mkDate y <$> zrange 1 (Z.to_nat (days_in_year y)).

(** Every valid date of the years of the window, in chronological order. *)
Definition windowDates : list date :=
  zrange EARLIEST_YEAR (Z.to_nat (LATEST_YEAR - EARLIEST_YEAR + 1)) ≫= datesOfYear.

(** Every element of the list is related to the next one. *)
Fixpoint chainb {A : Type} (r : A → A → bool) (l : list A) : bool :=
  match l with
  | a :: (b :: _) as l' => r a b && chainb r l'
  | _ => true
  end.

(** Days from January 1st of [EARLIEST_YEAR] to the date, for a date from that
    year on. *)
Definition dayNumber (d : date) : Z :=
  foldr Z.add 0%Z (days_in_year <$> zrange EARLIEST_YEAR (Z.to_nat (year d - EARLIEST_YEAR)))
  + (day_of_year d - 1).

(** The fractional year halfway between the two ends of the window. *)
Definition midpointYear : double :=
  ((of_uint EARLIEST_YEAR + of_uint LATEST_YEAR) / 2)%float.

(** ** Director axis *)

(** The directors [ds] are queried one after the other; the positions
    returned, in the same order. *)
Fixpoint queryDirectors (ds : list (option PersonId)) : M (list double) :=
  match ds with
  | [] => ret []
  | d :: rest =>
      let* x := getDirectorXPosition d in
      let* xs := queryDirectors rest in
      ret (x :: xs)
  end.

(** The distinct directors queried so far, in the order of their first query,
    once [ds] are queried after [seen]. *)
Definition queriedAfter (seen ds : list (option PersonId)) : list (option PersonId) :=
  foldl (λ seen d, if decide (d ∈ seen) then seen else seen ++ [d]) seen ds.

Definition firstQueried (ds : list (option PersonId)) : list (option PersonId) :=
  queriedAfter [] ds.

(** The table holds the directors of [seen], each at [DISTANCE] times its
    index in [seen]. *)
Definition slotsOf (seen : list (option PersonId)) (tbl : gmap (option PersonId) double) : Prop :=
  size tbl = length seen
  ∧ (∀ d, is_Some (tbl !! d) → d ∈ seen)
  ∧ (∀ k d, seen !! k = Some d → tbl !! d = Some (DISTANCE * of_uint (Z.of_nat k))%float).

(** The table of the provider was filled by queries from the empty table. *)
Definition slotted (st : DefaultLayoutProvider) : Prop :=
  ∃ seen, slotsOf seen (directorXPositions st).

(** The number of slots within which the positions are exact multiples of
    [DISTANCE]: far more than a table can hold. *)
Definition EXACT_SLOTS : Z := 2 ^ 51.

(** ** Layout index and curve builder *)

(** Every weak movie reference of the actor resolves. *)
Definition moviesResolve (actor : Person) : Prop :=
  Forall is_Some (getMoviesStarredIn actor).

(** The provider after a new curve of [actor] is built and registered under
    [mp]: what [new ActorCurve] followed by [addActorCurve] leaves. *)
Definition registered (actor : PersonId) (c : BezierCurve) (mp : MoviePair)
    (st : DefaultLayoutProvider) : DefaultLayoutProvider :=
  let r := length (store st) in
  let group := actorCurvesByMoviePair st !! pairKey mp in
  mkProvider (directorXPositions st)
    (<[actor := getActorCurves actor st ++ [r]]> (actorCurvesByActor st))
    (<[pairKey mp := (default mp (fst <$> group), default [] (snd <$> group) ++ [r])]>
       (actorCurvesByMoviePair st))
    (store st ++ [newActorCurve actor c]).

(** Well-formed providers: the references held by the movie-pair map designate
    cells of the store, no reference is held twice, and the directors of the
    movies of every stored pair have their position assigned. *)
Record wf (st : DefaultLayoutProvider) : Prop := mkWf {
  wf_inStore : ∀ key g r,
    actorCurvesByMoviePair st !! key = Some g → r ∈ g.2 → r < length (store st);
  wf_noDup : ∀ key g,
    actorCurvesByMoviePair st !! key = Some g → NoDup g.2;
  wf_disjoint : ∀ k1 k2 g1 g2 r,
    actorCurvesByMoviePair st !! k1 = Some g1 →
    actorCurvesByMoviePair st !! k2 = Some g2 →
    r ∈ g1.2 → r ∈ g2.2 → k1 = k2;
  wf_assigned : ∀ key g,
    actorCurvesByMoviePair st !! key = Some g →
    is_Some (directorXPositions st !! getDirector (getFirstMovie g.1))
    ∧ is_Some (directorXPositions st !! getDirector (getSecondMovie g.1))
}.

(** ** Overlap resolver *)

(** The point of a movie at [z = 0], read off the table of a provider. *)
Definition moviePoint (st : DefaultLayoutProvider) (m : Movie) : Point3d.t :=
  Point3d.mk (default 0%float (directorXPositions st !! getDirector m))
             (getDateYPosition (getReleaseDate m)) 0%float.

(** The offset direction of a movie pair: the normalized perpendicular of the
    line from its first movie to its second. *)
Definition pairDirection (st : DefaultLayoutProvider) (mp : MoviePair) : Vector3d.t :=
  offsetDirectionOf (moviePoint st (getFirstMovie mp)) (moviePoint st (getSecondMovie mp)).

(** What the loop over the movie-pair map leaves of the rest of the provider. *)
Definition sameIndex (st st' : DefaultLayoutProvider) : Prop :=
  directorXPositions st' = directorXPositions st
  ∧ actorCurvesByActor st' = actorCurvesByActor st
  ∧ actorCurvesByMoviePair st' = actorCurvesByMoviePair st
  ∧ length (store st') = length (store st).

(** The entry of the movie-pair map is ready for the loop. *)
Definition entryReady (st : DefaultLayoutProvider)
    (e : nat * nat * (MoviePair * list CurveRef)) : Prop :=
  NoDup e.2.2
  ∧ (∀ r, r ∈ e.2.2 → r < length (store st))
  ∧ is_Some (directorXPositions st !! getDirector (getFirstMovie e.2.1))
  ∧ is_Some (directorXPositions st !! getDirector (getSecondMovie e.2.1)).

(** The offset of the curve at an insertion index, as section 4.4 words it. *)
Definition offsetOfIndex (i : nat) : double :=
  match i with
  | 0 => 0%float
  | _ => (of_uint ((Z.of_nat i + 1) / 2) * 0.05 * (if Nat.even i then -1 else 1))%float
  end.

(** The actor curve once its middle is moved by [amount] along [direction]. *)
Definition shiftedBy (amount : double) (direction : Vector3d.t) (ac : ActorCurve)
    : ActorCurve :=
  let halves := divergedCurves (Vector3d.scale amount direction) (getFirstCurve ac) in
  mkActorCurve (getActor ac) halves.1 (Some halves.2).

(** ** What the building of the index keeps *)

(** [st'] holds what [st] holds, in the same places: the table and the store
    are extended, every sequence of the two index maps is extended at its end,
    and a group keeps the pair object it was created with. *)
Definition extends (st st' : DefaultLayoutProvider) : Prop :=
  directorXPositions st ⊆ directorXPositions st'
  ∧ store st `prefix_of` store st'
  ∧ (∀ a, getActorCurves a st `prefix_of` getActorCurves a st')
  ∧ (∀ key mp refs, actorCurvesByMoviePair st !! key = Some (mp, refs) →
       ∃ refs', actorCurvesByMoviePair st' !! key = Some (mp, refs')
                ∧ refs `prefix_of` refs').

(** The two index maps list the curves of the store: a curve is listed, once,
    in the sequence of its actor and in no other, and every curve is held by a
    group of the movie-pair map. *)
Record indexed (st : DefaultLayoutProvider) : Prop := mkIndexed {
  ix_actor : ∀ a r,
    r ∈ getActorCurves a st ↔ getActor <$> store st !! r = Some a;
  ix_actorNoDup : ∀ a, NoDup (getActorCurves a st);
  ix_pair : ∀ r, r < length (store st) →
    ∃ key g, actorCurvesByMoviePair st !! key = Some g ∧ r ∈ g.2
}.

(** No actor curve holds two curves yet. *)
Definition unsplit (st : DefaultLayoutProvider) : Prop :=
  ∀ r ac, store st !! r = Some ac → getSecondCurve ac = None.

(** The number of curves the actors of a list are given: one less than the
    number of movies, for every actor with a movie. *)
Definition curvesOf (actors : list Person) : nat :=
  sum_list ((λ p, length (getMoviesStarredIn p) - 1) <$> actors).

(** The same, counting the entries of the list with the identity [a]. *)
Definition curvesOfActor (a : PersonId) (actors : list Person) : nat :=
  curvesOf (filter (λ p, personId p = a) actors).

(** ** The ends of a curve *)

(** The last point of an actor curve: that of its second curve when it holds
    two. *)
Definition lastPoint (ac : ActorCurve) : Point3d.t :=
  getP3 (default (getFirstCurve ac) (getSecondCurve ac)).

(** ** A small model *)

Definition movie1 : Movie := mkMovie 1 (mkDate 2000 1) (Some 10).
Definition movie2 : Movie := mkMovie 2 (mkDate 2002 1) (Some 10).
Definition movie3 : Movie := mkMovie 3 (mkDate 2004 1) (Some 11).
Definition movie4 : Movie := mkMovie 4 (mkDate 2006 1) (Some 11).
(** Two movies whose director reference has expired. *)
Definition movie5 : Movie := mkMovie 5 (mkDate 2007 1) None.
Definition movie6 : Movie := mkMovie 6 (mkDate 2008 1) None.

Definition actorA : Person := mkPerson 100 [Some movie1; Some movie2; Some movie3].
Definition actorB : Person := mkPerson 101 [Some movie2; Some movie1].
Definition actorC : Person := mkPerson 102 [Some movie1; Some movie2].
Definition actorD : Person := mkPerson 103 [Some movie3].
Definition actorE : Person := mkPerson 104 [Some movie2; Some movie3; Some movie4].
Definition actorF : Person := mkPerson 105 [Some movie5; Some movie6].

Definition exampleModel : Model := mkModel [actorA; actorB; actorC].

(** A cast with an actor of one movie, an actor of none and an actor whose
    movies have an expired director reference. *)
Definition actorG : Person := mkPerson 106 [].

Definition exampleCast : Model :=
  mkModel [actorA; actorD; actorB; actorG; actorF; actorC].

(** The provider of [exampleModel] when every actor is walked, before the
    overlap resolver runs. *)
Definition exampleBuilt : DefaultLayoutProvider :=
  default emptyProvider (exec (initActors (getActors exampleModel)) emptyProvider).

(** The provider [exampleModel] is laid out into. *)
Definition exampleLaidOut : DefaultLayoutProvider :=
  default emptyProvider (layout exampleModel).

(** The providers left by the walk of [actorE], and of [actorF], alone. *)
Definition exampleWalkE : DefaultLayoutProvider :=
  default emptyProvider (exec (initActorCurves actorE) emptyProvider).

Definition exampleWalkF : DefaultLayoutProvider :=
  default emptyProvider (exec (initActorCurves actorF) emptyProvider).

(** * Properties *)

(** ** Order of binary64 numbers *)

Ltac case_compare :=
  repeat match goal with
  | H : context [Z.compare ?a ?b] |- _ => destruct (Z.compare_spec a b); subst
  | |- context [Z.compare ?a ?b] => destruct (Z.compare_spec a b); subst
  | H : context [Pos.compare ?a ?b] |- _ => destruct (Pos.compare_spec a b); subst
  | |- context [Pos.compare ?a ?b] => destruct (Pos.compare_spec a b); subst
  end.

Lemma SFcompare_trans (x y z : spec_float) (c1 c2 : comparison) :
  SFcompare x y = Some c1 → SFcompare y z = Some c2 →
  c1 ≠ Gt → c2 ≠ Gt → SFcompare x z = Some (cmp_then c1 c2).
Proof.
  destruct x as [[]|[]| |[] mx ex], y as [[]|[]| |[] my ey], z as [[]|[]| |[] mz ez];
    cbn; intros H1 H2 N1 N2; simplify_eq; try done; cbn in *.
  all: change (Pos.compare_cont Eq) with Pos.compare in *.
  all: case_compare; cbn in *; try done; try lia.
Qed.

Lemma SFcompare_of_leb (a b : float) :
  PrimFloat.leb a b = true →
  ∃ c, SFcompare (Prim2SF a) (Prim2SF b) = Some c ∧ c ≠ Gt.
Proof.
  rewrite leb_spec. unfold SFleb.
  destruct (SFcompare _ _) as [[]|]; intros; try done; eauto.
Qed.

Lemma float_ltb_leb (a b : float) :
  PrimFloat.ltb a b = true → PrimFloat.leb a b = true.
Proof.
  rewrite ltb_spec, leb_spec. unfold SFltb, SFleb.
  by destruct (SFcompare _ _) as [[]|].
Qed.

Lemma float_eqb_leb (a b : float) :
  PrimFloat.eqb a b = true → PrimFloat.leb a b = true.
Proof.
  rewrite FloatAxioms.eqb_spec, leb_spec. unfold SFeqb, SFleb.
  by destruct (SFcompare _ _) as [[]|].
Qed.

Lemma float_leb_trans (a b c : float) :
  PrimFloat.leb a b = true → PrimFloat.leb b c = true → PrimFloat.leb a c = true.
Proof.
  intros (c1 & H1 & N1)%SFcompare_of_leb (c2 & H2 & N2)%SFcompare_of_leb.
  rewrite leb_spec. unfold SFleb.
  rewrite (SFcompare_trans _ _ _ _ _ H1 H2 N1 N2).
  by destruct c1, c2.
Qed.

Lemma float_ltb_leb_trans (a b c : float) :
  PrimFloat.ltb a b = true → PrimFloat.leb b c = true → PrimFloat.ltb a c = true.
Proof.
  intros H1 (c2 & H2 & N2)%SFcompare_of_leb.
  rewrite ltb_spec in H1 |- *. unfold SFltb in *.
  destruct (SFcompare (Prim2SF a) (Prim2SF b)) as [[]|] eqn:E; try done.
  by rewrite (SFcompare_trans _ _ _ _ _ E H2).
Qed.

Lemma float_leb_ltb_trans (a b c : float) :
  PrimFloat.leb a b = true → PrimFloat.ltb b c = true → PrimFloat.ltb a c = true.
Proof.
  intros (c1 & H1 & N1)%SFcompare_of_leb H2.
  rewrite ltb_spec in H2 |- *. unfold SFltb in *.
  destruct (SFcompare (Prim2SF b) (Prim2SF c)) as [[]|] eqn:E; try done.
  rewrite (SFcompare_trans _ _ _ _ _ H1 E); [|done..].
  by destruct c1.
Qed.

(** ** Date axis *)

Lemma date_ltb_lt (d1 d2 : date) : date_ltb d1 d2 = true ↔ date_lt d1 d2.
Proof. unfold date_ltb, date_lt. lia. Qed.

Lemma leapYearTurnb_spec (d1 d2 : date) :
  leapYearTurnb d1 d2 = true ↔ leapYearTurn d1 d2.
Proof.
  unfold leapYearTurnb, leapYearTurn.
  rewrite !andb_true_iff, !Z.eqb_eq. tauto.
Qed.

Lemma axisOrderedb_spec (d1 d2 : date) :
  axisOrderedb d1 d2 = true ↔ axisOrdered d1 d2.
Proof.
  unfold axisOrderedb, axisOrdered.
  rewrite !andb_true_iff, orb_true_iff, andb_true_iff,
    date_ltb_lt, leapYearTurnb_spec.
  tauto.
Qed.

Lemma axisOrdered_trans : Relation_Definitions.transitive date axisOrdered.
Proof.
  intros a b c (L1 & E1 & S1) (L2 & E2 & S2). split; [|split].
  - unfold date_lt in *. lia.
  - eauto using float_leb_trans.
  - destruct S1 as [S1|[T1 _]]; [left; eauto using float_ltb_leb_trans|].
    destruct S2 as [S2|[T2 _]]; [left; eauto using float_leb_ltb_trans|].
    unfold leapYearTurn in *. lia.
Qed.

Lemma chainb_Sorted {A : Type} (r : A → A → bool) (l : list A) :
  chainb r l = true → Sorted (λ a b, r a b = true) l.
Proof.
  induction l as [|a [|b l] IH]; cbn; intros H.
  - constructor.
  - repeat constructor.
  - apply andb_true_iff in H as [H1 H2]. constructor; [by apply IH|by constructor].
Qed.

Lemma StronglySorted_related {A : Type} (R : A → A → Prop) (l : list A) (a b : A) :
  StronglySorted R l → a ∈ l → b ∈ l → a = b ∨ R a b ∨ R b a.
Proof.
  induction 1 as [|x l Hs IH Hx]; intros Ha Hb.
  - by apply elem_of_nil in Ha.
  - rewrite Forall_forall in Hx.
    apply elem_of_cons in Ha as [->|Ha], Hb as [->|Hb]; auto.
Qed.

Lemma windowDates_chain : chainb axisOrderedb windowDates = true.
Proof. vm_compute. reflexivity. Qed.

Lemma windowDates_sorted : StronglySorted axisOrdered windowDates.
Proof.
  apply Sorted_StronglySorted; [exact axisOrdered_trans|].
  eapply Sorted_ind with (P := Sorted axisOrdered);
    [constructor| |exact (chainb_Sorted _ _ windowDates_chain)].
  intros a l _ IH Hd. constructor; [done|].
  destruct Hd; constructor. by apply axisOrderedb_spec.
Qed.

Lemma elem_of_zrange (a : Z) (n : nat) (x : Z) :
  x ∈ zrange a n ↔ (a ≤ x < a + Z.of_nat n)%Z.
Proof.
  unfold zrange. rewrite list_elem_of_fmap. split.
  - intros (i & -> & Hi%elem_of_seq). lia.
  - intros H. exists (Z.to_nat (x - a)). split; [lia|].
    apply elem_of_seq. lia.
Qed.

Lemma elem_of_windowDates (d : date) :
  valid_date d → inWindow d → d ∈ windowDates.
Proof.
  unfold valid_date, inWindow, windowDates. intros Hv Hw.
  apply list_elem_of_bind. exists (year d). split.
  - unfold datesOfYear. apply list_elem_of_fmap. exists (day_of_year d).
    split; [by destruct d|]. apply elem_of_zrange.
    unfold days_in_year in *. destruct (is_leap_year (year d)); lia.
  - apply elem_of_zrange. unfold EARLIEST_YEAR, LATEST_YEAR in *. lia.
Qed.

Lemma date_lt_asym (d1 d2 : date) : date_lt d1 d2 → date_lt d2 d1 → False.
Proof. unfold date_lt. lia. Qed.

(** C6, as stated, fails: 31 December 1988 (day 366 of a leap year) is
    earlier than 1 January 1989, both are in the window, and their positions
    on the date axis are equal, so the earlier one is not strictly below. *)
Lemma date_axis_not_strict_at_leap_year_turn :
  valid_date (mkDate 1988 366) ∧ valid_date (mkDate 1989 1)
  ∧ inWindow (mkDate 1988 366) ∧ inWindow (mkDate 1989 1)
  ∧ date_lt (mkDate 1988 366) (mkDate 1989 1)
  ∧ PrimFloat.ltb (getDateYPosition (mkDate 1988 366))
                  (getDateYPosition (mkDate 1989 1)) = false
  ∧ getDateYPosition (mkDate 1988 366) = getDateYPosition (mkDate 1989 1).
Proof.
  unfold valid_date, inWindow, date_lt, days_in_year, EARLIEST_YEAR, LATEST_YEAR.
  cbn. repeat split; try lia; by vm_compute.
Qed.

(** At a leap-year turn inside the window the two positions are one and the
    same number: day 366 of the leap year and day 1 of the next year have the
    same fractional year. *)
Lemma leapYearTurn_same_position (d1 d2 : date) :
  inWindow d1 → inWindow d2 → leapYearTurn d1 d2 →
  getDateYPosition d1 = getDateYPosition d2
  ∧ PrimFloat.eqb (getDateYPosition d1) (getDateYPosition d2) = true
  ∧ PrimFloat.ltb (getDateYPosition d1) (getDateYPosition d2) = false.
Proof.
  destruct d1 as [y1 n1], d2 as [y2 n2].
  unfold inWindow, leapYearTurn, EARLIEST_YEAR, LATEST_YEAR. cbn.
  intros W1 W2 (Hleap & -> & -> & ->).
  assert (y1 = 1988 ∨ y1 = 1992 ∨ y1 = 1996 ∨ y1 = 2000 ∨ y1 = 2004 ∨ y1 = 2008)%Z
    as Hy.
  { unfold is_leap_year in Hleap. apply andb_true_iff in Hleap as [H4 _].
    apply Z.eqb_eq in H4. revert H4. Z.to_euclidean_division_equations. lia. }
  destruct Hy as [->|[->|[->|[->|[->| ->]]]]];
    (split; [|split]); vm_compute; reflexivity.
Qed.

(** C6, amended: for two valid dates of the calibration window, [d1] earlier
    than [d2], the position of [d1] is at most that of [d2]. Either [d1] is
    not day 366 of a leap year followed by [d2] as day 1 of the next year, and
    the position of [d1] is strictly less; or it is, and then the two
    positions are equal, none being strictly less. The fractional year is
    [year + dayOfYear/365.0] ([dateAsYear]). *)
Theorem date_axis_monotone (d1 d2 : date) :
  valid_date d1 → valid_date d2 → inWindow d1 → inWindow d2 →
  date_lt d1 d2 →
  PrimFloat.leb (getDateYPosition d1) (getDateYPosition d2) = true
  ∧ ((¬ leapYearTurn d1 d2
      ∧ PrimFloat.ltb (getDateYPosition d1) (getDateYPosition d2) = true)
     ∨ (leapYearTurn d1 d2
        ∧ getDateYPosition d1 = getDateYPosition d2
        ∧ PrimFloat.eqb (getDateYPosition d1) (getDateYPosition d2) = true
        ∧ PrimFloat.ltb (getDateYPosition d1) (getDateYPosition d2) = false)).
Proof.
  intros V1 V2 W1 W2 Hlt.
  assert (axisOrdered d1 d2) as (_ & Hle & Hstep).
  { destruct (StronglySorted_related _ _ d1 d2 windowDates_sorted
                (elem_of_windowDates _ V1 W1) (elem_of_windowDates _ V2 W2))
      as [->|[H|(H & _)]]; [|exact H|].
    - exfalso. eapply date_lt_asym; eauto.
    - exfalso. eapply date_lt_asym; eauto. }
  split; [exact Hle|].
  destruct (leapYearTurnb d1 d2) eqn:T.
  - apply leapYearTurnb_spec in T. right. split; [exact T|].
    by apply leapYearTurn_same_position.
  - left. assert (¬ leapYearTurn d1 d2) as Hno.
    { intros H%leapYearTurnb_spec. by rewrite H in T. }
    split; [exact Hno|]. by destruct Hstep as [?|[? _]].
Qed.

Lemma date_axis_monotone_witness :
  (PrimFloat.leb (getDateYPosition (mkDate 2000 1)) (getDateYPosition (mkDate 2002 1)) = true
   ∧ ((¬ leapYearTurn (mkDate 2000 1) (mkDate 2002 1)
       ∧ PrimFloat.ltb (getDateYPosition (mkDate 2000 1))
                       (getDateYPosition (mkDate 2002 1)) = true)
      ∨ (leapYearTurn (mkDate 2000 1) (mkDate 2002 1)
         ∧ getDateYPosition (mkDate 2000 1) = getDateYPosition (mkDate 2002 1)
         ∧ PrimFloat.eqb (getDateYPosition (mkDate 2000 1))
                         (getDateYPosition (mkDate 2002 1)) = true
         ∧ PrimFloat.ltb (getDateYPosition (mkDate 2000 1))
                         (getDateYPosition (mkDate 2002 1)) = false)))
  ∧ PrimFloat.leb (getDateYPosition (mkDate 1996 366)) (getDateYPosition (mkDate 1997 1)) = true
  ∧ ((¬ leapYearTurn (mkDate 1996 366) (mkDate 1997 1)
      ∧ PrimFloat.ltb (getDateYPosition (mkDate 1996 366))
                      (getDateYPosition (mkDate 1997 1)) = true)
     ∨ (leapYearTurn (mkDate 1996 366) (mkDate 1997 1)
        ∧ getDateYPosition (mkDate 1996 366) = getDateYPosition (mkDate 1997 1)
        ∧ PrimFloat.eqb (getDateYPosition (mkDate 1996 366))
                        (getDateYPosition (mkDate 1997 1)) = true
        ∧ PrimFloat.ltb (getDateYPosition (mkDate 1996 366))
                        (getDateYPosition (mkDate 1997 1)) = false)).
Proof.
  split.
  - apply (date_axis_monotone (mkDate 2000 1) (mkDate 2002 1));
      unfold valid_date, inWindow, date_lt, days_in_year, EARLIEST_YEAR, LATEST_YEAR;
      cbn; try lia; split; by vm_compute.
  - apply (date_axis_monotone (mkDate 1996 366) (mkDate 1997 1));
      unfold valid_date, inWindow, date_lt, days_in_year, EARLIEST_YEAR, LATEST_YEAR;
      cbn; try lia; split; by vm_compute.
Defined.

(** C7, as stated, fails: 1 January 1997 is as many days after 1 January
    1985 as before 1 January 2009, and its position is not 0.0: the day of
    the year counts from 1, so its fractional year is 1997 + 1/365. *)
Lemma midpoint_date_not_at_zero :
  valid_date (mkDate 1997 1)
  ∧ (dayNumber (mkDate 1997 1) - dayNumber (mkDate EARLIEST_YEAR 1)
     = dayNumber (mkDate LATEST_YEAR 1) - dayNumber (mkDate 1997 1))%Z
  ∧ PrimFloat.eqb (getDateYPosition (mkDate 1997 1)) 0 = false
  ∧ PrimFloat.ltb 0 (getDateYPosition (mkDate 1997 1)) = true.
Proof.
  unfold valid_date, days_in_year. cbn.
  repeat split; try lia; by vm_compute.
Qed.

(** C7, amended: [getDateYPosition] returns 0.0 at every date whose
    fractional year [year + dayOfYear/365.0] is exactly the midpoint 1997.0 of
    [EARLIEST_YEAR] and [LATEST_YEAR]; with the day of the year counting from
    1 that date is day 365 of 1996. *)
Theorem midpoint_year_at_zero (d : date) :
  dateAsYear d = midpointYear → getDateYPosition d = 0%float.
Proof.
  intros H. unfold getDateYPosition. rewrite H. vm_compute. reflexivity.
Qed.

Lemma midpoint_year_at_zero_witness :
  dateAsYear (mkDate 1996 365) = midpointYear
  ∧ getDateYPosition (mkDate 1996 365) = 0%float.
Proof.
  split; [vm_compute; reflexivity|].
  apply (midpoint_year_at_zero (mkDate 1996 365)). vm_compute. reflexivity.
Defined.

(** ** Director axis *)

Lemma getDirectorXPosition_assigned (d : option PersonId) (st : DefaultLayoutProvider) (x : double) :
  directorXPositions st !! d = Some x → getDirectorXPosition d st = Some (x, st).
Proof. unfold getDirectorXPosition. by intros ->. Qed.

Lemma getDirectorXPosition_fresh (d : option PersonId) (st : DefaultLayoutProvider) :
  directorXPositions st !! d = None →
  getDirectorXPosition d st =
    Some ((DISTANCE * of_uint (Z.of_nat (size (directorXPositions st))))%float,
          mkProvider (<[d := (DISTANCE * of_uint (Z.of_nat (size (directorXPositions st))))%float]>
                        (directorXPositions st))
                     (actorCurvesByActor st) (actorCurvesByMoviePair st) (store st)).
Proof. unfold getDirectorXPosition. by intros ->. Qed.

Lemma getDirectorXPosition_run (d : option PersonId) (st : DefaultLayoutProvider) :
  ∃ x st', getDirectorXPosition d st = Some (x, st')
    ∧ directorXPositions st' !! d = Some x
    ∧ directorXPositions st ⊆ directorXPositions st'
    ∧ actorCurvesByActor st' = actorCurvesByActor st
    ∧ actorCurvesByMoviePair st' = actorCurvesByMoviePair st
    ∧ store st' = store st.
Proof.
  destruct (directorXPositions st !! d) as [x|] eqn:E.
  - exists x, st. by rewrite (getDirectorXPosition_assigned _ _ _ E).
  - eexists _, _. rewrite (getDirectorXPosition_fresh _ _ E).
    split; [reflexivity|]. cbn. split_and!; try done.
    + by rewrite lookup_insert_eq.
    + by apply insert_subseteq.
Qed.

Lemma getMoviePoint_run (m : Movie) (z : double) (st : DefaultLayoutProvider) :
  ∃ x st', getMoviePoint (Some m) z st
           = Some (Point3d.mk x (getDateYPosition (getReleaseDate m)) z, st')
    ∧ getDirectorXPosition (getDirector m) st = Some (x, st')
    ∧ directorXPositions st' !! getDirector m = Some x
    ∧ directorXPositions st ⊆ directorXPositions st'
    ∧ actorCurvesByActor st' = actorCurvesByActor st
    ∧ actorCurvesByMoviePair st' = actorCurvesByMoviePair st
    ∧ store st' = store st.
Proof.
  destruct (getDirectorXPosition_run (getDirector m) st) as (x & st' & H & ?).
  exists x, st'. unfold getMoviePoint, bind, ret. by rewrite H.
Qed.

Lemma getMoviePoint_assigned (m : Movie) (z : double) (st : DefaultLayoutProvider) (x : double) :
  directorXPositions st !! getDirector m = Some x →
  getMoviePoint (Some m) z st
  = Some (Point3d.mk x (getDateYPosition (getReleaseDate m)) z, st).
Proof.
  intros H. unfold getMoviePoint, bind, ret.
  by rewrite (getDirectorXPosition_assigned _ _ _ H).
Qed.

Lemma slotsOf_empty : slotsOf [] ∅.
Proof.
  split_and!; [done| |done].
  intros d [x Hx]. by rewrite lookup_empty in Hx.
Qed.

Lemma slotsOf_query (seen : list (option PersonId)) (d : option PersonId)
    (st st' : DefaultLayoutProvider) (x : double) :
  slotsOf seen (directorXPositions st) →
  getDirectorXPosition d st = Some (x, st') →
  slotsOf (queriedAfter seen [d]) (directorXPositions st').
Proof.
  intros (Hsize & Hdom & Hslot) Hrun. cbn.
  destruct (directorXPositions st !! d) as [y|] eqn:E.
  - rewrite (getDirectorXPosition_assigned _ _ _ E) in Hrun. simplify_eq.
    rewrite decide_True; [done|]. apply Hdom. by rewrite E.
  - rewrite (getDirectorXPosition_fresh _ _ E) in Hrun. simplify_eq. cbn.
    rewrite decide_False.
    2:{ intros [k Hk]%list_elem_of_lookup. apply Hslot in Hk. by rewrite E in Hk. }
    split_and!.
    + rewrite map_size_insert_None, length_app by done. cbn. lia.
    + intros d' [y Hy]. apply elem_of_app.
      destruct (decide (d = d')) as [->|Hne]; [right; by apply list_elem_of_singleton|].
      rewrite lookup_insert_ne in Hy by done. left. apply Hdom. by rewrite Hy.
    + intros k d' Hk. apply lookup_app_Some in Hk as [Hk|[Hge Hk]].
      * rewrite lookup_insert_ne; [by apply Hslot|].
        intros ->. apply Hslot in Hk. by rewrite E in Hk.
      * apply list_lookup_singleton_Some in Hk as [Hk ->].
        rewrite lookup_insert_eq, Hsize. by replace k with (length seen) by lia.
Qed.

Lemma queryDirectors_slots (ds seen : list (option PersonId)) (st : DefaultLayoutProvider) :
  slotsOf seen (directorXPositions st) →
  ∃ xs st', queryDirectors ds st = Some (xs, st')
    ∧ slotsOf (queriedAfter seen ds) (directorXPositions st')
    ∧ directorXPositions st ⊆ directorXPositions st'
    ∧ ∀ j d, ds !! j = Some d → xs !! j = directorXPositions st' !! d.
Proof.
  revert seen st. induction ds as [|d ds IH]; intros seen st Hs.
  - exists [], st. by split_and!.
  - destruct (getDirectorXPosition_run d st) as (x & st1 & Hrun & Hx & Hsub & _).
    pose proof (slotsOf_query _ _ _ _ _ Hs Hrun) as Hs1.
    destruct (IH _ _ Hs1) as (xs & st' & Hrun' & Hs' & Hsub' & Hxs).
    exists (x :: xs), st'. cbn. unfold bind, ret. rewrite Hrun, Hrun'.
    split_and!; [done|done|by etrans|].
    intros [|j] d' Hj; cbn in *; [|by apply Hxs].
    simplify_eq. symmetry. by eapply lookup_weaken.
Qed.

(** ** Layout index *)

Lemma register_run (actor : PersonId) (c : BezierCurve) (mp : MoviePair)
    (st : DefaultLayoutProvider) :
  (let* r := allocActorCurve (newActorCurve actor c) in addActorCurve r mp) st
  = Some (tt, registered actor c mp st).
Proof.
  unfold bind, allocActorCurve, addActorCurve, registered, getActorCurves. cbn.
  rewrite lookup_app_r, Nat.sub_diag by done. cbn.
  by destruct (actorCurvesByActor st !! actor),
    (actorCurvesByMoviePair st !! pairKey mp) as [[??]|].
Qed.

Lemma wf_emptyProvider : wf emptyProvider.
Proof. split; cbn; intros *; by rewrite lookup_empty. Qed.

Lemma wf_table (st st' : DefaultLayoutProvider) :
  wf st →
  directorXPositions st ⊆ directorXPositions st' →
  actorCurvesByMoviePair st' = actorCurvesByMoviePair st →
  store st' = store st →
  wf st'.
Proof.
  intros [H1 H2 H3 H4] Hsub Hp Hs. split; rewrite ?Hp, ?Hs; try done.
  intros key g Hg. destruct (H4 _ _ Hg) as [[x Hx] [y Hy]].
  split; eexists; by eapply lookup_weaken.
Qed.

Lemma wf_registered (actor : PersonId) (c : BezierCurve) (mp : MoviePair)
    (st : DefaultLayoutProvider) :
  wf st →
  is_Some (directorXPositions st !! getDirector (getFirstMovie mp)) →
  is_Some (directorXPositions st !! getDirector (getSecondMovie mp)) →
  wf (registered actor c mp st).
Proof.
  intros [H1 H2 H3 H4] Hf Hs.
  assert (Hold : ∀ g r, actorCurvesByMoviePair st !! pairKey mp = Some g →
                        r ∈ g.2 → r ≠ length (store st)).
  { intros g r Hg Hr ->. specialize (H1 _ _ _ Hg Hr). lia. }
  split; unfold registered; cbn.
  - intros key g r. rewrite length_app. cbn.
    destruct (decide (pairKey mp = key)) as [<-|Hne].
    + rewrite lookup_insert_eq. intros [= <-]. cbn.
      intros [Hr| ->%list_elem_of_singleton]%elem_of_app; [|lia].
      destruct (actorCurvesByMoviePair st !! pairKey mp) as [g|] eqn:E; cbn in Hr.
      * specialize (H1 _ _ _ E Hr). lia.
      * by apply elem_of_nil in Hr.
    + rewrite lookup_insert_ne by done. intros Hg Hr.
      specialize (H1 _ _ _ Hg Hr). lia.
  - intros key g.
    destruct (decide (pairKey mp = key)) as [<-|Hne].
    + rewrite lookup_insert_eq. intros [= <-]. cbn.
      destruct (actorCurvesByMoviePair st !! pairKey mp) as [g|] eqn:E; cbn.
      * apply NoDup_app. split_and!; [by eapply H2| |apply NoDup_singleton].
        intros r Hr ->%list_elem_of_singleton. by eapply Hold.
      * apply NoDup_singleton.
    + rewrite lookup_insert_ne by done. apply H2.
  - assert (Hnew : ∀ key g, key ≠ pairKey mp →
               actorCurvesByMoviePair st !! key = Some g →
               length (store st) ∉ g.2).
    { intros key g _ Hg Hr. specialize (H1 _ _ _ Hg Hr). lia. }
    intros k1 k2 g1 g2 r.
    destruct (decide (pairKey mp = k1)) as [<-|Hne1],
             (decide (pairKey mp = k2)) as [<-|Hne2]; [done|..].
    + rewrite lookup_insert_eq, lookup_insert_ne by done.
      intros [= <-] Hg2. cbn.
      intros [Hr| ->%list_elem_of_singleton]%elem_of_app Hr2.
      * destruct (actorCurvesByMoviePair st !! pairKey mp) as [g|] eqn:E; cbn in Hr.
        -- by eapply H3.
        -- by apply elem_of_nil in Hr.
      * exfalso. eapply Hnew; [|done..]. done.
    + rewrite lookup_insert_eq, lookup_insert_ne by done.
      intros Hg1 [= <-]. cbn.
      intros Hr1 [Hr| ->%list_elem_of_singleton]%elem_of_app.
      * destruct (actorCurvesByMoviePair st !! pairKey mp) as [g|] eqn:E; cbn in Hr.
        -- by eapply H3.
        -- by apply elem_of_nil in Hr.
      * exfalso. eapply Hnew; [|done..]. done.
    + rewrite !lookup_insert_ne by done. apply H3.
  - intros key g.
    destruct (decide (pairKey mp = key)) as [<-|Hne].
    + rewrite lookup_insert_eq. intros [= <-]. cbn.
      destruct (actorCurvesByMoviePair st !! pairKey mp) as [g|] eqn:E; cbn.
      * by eapply H4.
      * done.
    + rewrite lookup_insert_ne by done. apply H4.
Qed.

(** ** Curve builder *)

Lemma walkMovies_cons (actor : PersonId) (z : double) (last m : Movie)
    (lastAnchor : Point3d.t) (rest : list (option Movie)) (st : DefaultLayoutProvider) :
  walkMovies actor z last lastAnchor (Some m :: rest) st
  = match getMoviePoint (Some m) z st with
    | Some (anchor, st1) =>
        walkMovies actor z last anchor rest
          (registered actor
             (stepCurve (sameDirector last m) lastAnchor anchor)
             (mkMoviePair last m) st1)
    | None => None
    end.
Proof.
  cbn [walkMovies]. unfold bind at 1.
  destruct (getMoviePoint (Some m) z st) as [[anchor st1]|]; [|done].
  pose proof (register_run actor
    (stepCurve (sameDirector last m) lastAnchor anchor)
    (mkMoviePair last m) st1) as H.
  unfold bind in *.
  destruct (allocActorCurve _ st1) as [[r st2]|]; [|done].
  by rewrite H.
Qed.

Lemma walkMovies_run (actor : PersonId) (z : double) (last : Movie) (rest : list Movie) :
  ∀ (lastAnchor : Point3d.t) (st : DefaultLayoutProvider),
  ∃ st', walkMovies actor z last lastAnchor (Some <$> rest) st = Some (tt, st')
    ∧ directorXPositions st ⊆ directorXPositions st'
    ∧ (∃ new, store st' = store st ++ new ∧ length new = length rest)
    ∧ getActorCurves actor st'
      = getActorCurves actor st ++ seq (length (store st)) (length rest)
    ∧ (∀ a, a ≠ actor → actorCurvesByActor st' !! a = actorCurvesByActor st !! a)
    ∧ (∀ key g r, actorCurvesByMoviePair st !! key = Some g → r ∈ g.2 →
         ∃ g', actorCurvesByMoviePair st' !! key = Some g' ∧ g'.1 = g.1 ∧ r ∈ g'.2)
    ∧ (∀ i m, rest !! i = Some m →
         ∃ g, actorCurvesByMoviePair st' !! pairKey (mkMoviePair last m) = Some g
              ∧ length (store st) + i ∈ g.2)
    ∧ (wf st → is_Some (directorXPositions st !! getDirector last) → wf st').
Proof.
  induction rest as [|m rest IH]; intros lastAnchor st.
  - exists st. cbn. split_and!; try done.
    + exists []. by rewrite app_nil_r.
    + by rewrite app_nil_r.
    + eauto.
  - rewrite fmap_cons, walkMovies_cons.
    destruct (getMoviePoint_run m z st) as (x & st1 & -> & _ & Hx & Hsub & Ha & Hp & Hs).
    set (anchor := Point3d.mk x (getDateYPosition (getReleaseDate m)) z).
    set (c := stepCurve _ lastAnchor anchor).
    set (mp := mkMoviePair last m).
    destruct (IH anchor (registered actor c mp st1))
      as (st' & -> & Hsub' & (new & Hstore & Hlen) & Hact & Hoth & Hgrow & Hreg & Hwf).
    exists st'. cbn [registered directorXPositions store actorCurvesByActor
                     actorCurvesByMoviePair] in *.
    rewrite ?Hs, ?Hp, ?Ha in *.
    assert (Hin : ∃ g, actorCurvesByMoviePair st' !! pairKey mp = Some g
                     ∧ length (store st) ∈ g.2).
    { edestruct (Hgrow (pairKey mp)) as (g' & ? & _ & ?);
        [apply lookup_insert_eq| |by eauto].
      cbn. apply elem_of_app. right. by apply list_elem_of_singleton. }
    split_and!; [done|by etrans| | | | | |].
    + exists (newActorCurve actor c :: new). rewrite Hstore, <- app_assoc. cbn.
      by rewrite Hlen.
    + rewrite Hact. unfold getActorCurves at 1. cbn.
      rewrite lookup_insert_eq. cbn. unfold getActorCurves. rewrite Ha.
      rewrite <- app_assoc, length_app. cbn. by rewrite ?Hs, Nat.add_1_r.
    + intros a Hne. rewrite Hoth by done. by rewrite lookup_insert_ne.
    + intros key g r Hg Hr.
      destruct (decide (pairKey mp = key)) as [<-|Hne].
      * edestruct (Hgrow (pairKey mp)) as (g' & ? & Hg1 & ?);
          [apply lookup_insert_eq| |].
        -- cbn. apply elem_of_app. left. rewrite Hg. cbn. done.
        -- exists g'. cbn in Hg1. rewrite Hg in Hg1. by cbn in Hg1.
      * eapply Hgrow; [|done]. by rewrite lookup_insert_ne.
    + intros [|i] m' Hi; cbn in Hi.
      * simplify_eq. by rewrite Nat.add_0_r.
      * destruct (Hreg _ _ Hi) as (g & ? & Hr). exists g. split; [done|].
        rewrite length_app in Hr. cbn in Hr.
        by replace (length (store st) + S i) with (length (store st) + 1 + i) by lia.
    + intros Hwf0 [y Hy]. apply Hwf.
      * apply wf_registered.
        -- by eapply (wf_table st).
        -- cbn. exists y. by eapply lookup_weaken.
        -- cbn. by exists x.
      * exists y. by eapply lookup_weaken.
Qed.

Lemma insertByReleaseDate_perm (m : Movie) (l : list Movie) :
  insertByReleaseDate m l ≡ₚ m :: l.
Proof.
  induction l as [|m' l IH]; cbn; [done|].
  destruct (releaseDateBefore m' m); [|done].
  rewrite IH. apply Permutation_swap.
Qed.

Lemma sortByReleaseDate_perm (ms : list Movie) : sortByReleaseDate ms ≡ₚ ms.
Proof.
  induction ms as [|m ms IH]; cbn; [done|].
  by rewrite insertByReleaseDate_perm, IH.
Qed.

Lemma mapM_id_resolved (ms : list Movie) : mapM id (Some <$> ms) = Some ms.
Proof. apply mapM_Some. induction ms; constructor; auto. Qed.

Lemma sortMovies_resolved (ms : list Movie) :
  ∃ ms', sortMovies (Some <$> ms) = Some (Some <$> ms') ∧ ms' ≡ₚ ms.
Proof.
  destruct ms as [|m1 [|m2 ms]]; [by exists []|by exists [m1]|].
  exists (sortByReleaseDate (m1 :: m2 :: ms)). split; [|apply sortByReleaseDate_perm].
  change (Some <$> m1 :: m2 :: ms) with (Some m1 :: Some m2 :: (Some <$> ms)).
  unfold sortMovies.
  change (Some m1 :: Some m2 :: (Some <$> ms)) with (Some <$> m1 :: m2 :: ms).
  by rewrite mapM_id_resolved.
Qed.

Lemma initActorCurves_run (actor : Person) (ms : list Movie) (st : DefaultLayoutProvider) :
  getMoviesStarredIn actor = Some <$> ms →
  ∃ st', initActorCurves actor st = Some (tt, st')
    ∧ directorXPositions st ⊆ directorXPositions st'
    ∧ (∃ new, store st' = store st ++ new ∧ length new = length ms - 1)
    ∧ getActorCurves (personId actor) st'
      = getActorCurves (personId actor) st ++ seq (length (store st)) (length ms - 1)
    ∧ (∀ a, a ≠ personId actor → actorCurvesByActor st' !! a = actorCurvesByActor st !! a)
    ∧ (∀ key g r, actorCurvesByMoviePair st !! key = Some g → r ∈ g.2 →
         ∃ g', actorCurvesByMoviePair st' !! key = Some g' ∧ g'.1 = g.1 ∧ r ∈ g'.2)
    ∧ (∀ r, length (store st) ≤ r < length (store st) + (length ms - 1) →
         ∃ key g, actorCurvesByMoviePair st' !! key = Some g ∧ r ∈ g.2)
    ∧ (wf st → wf st').
Proof.
  intros Hms. unfold initActorCurves. rewrite Hms, length_fmap.
  destruct (sortMovies_resolved ms) as (ms' & -> & Hperm).
  rewrite <- (Permutation_length Hperm).
  destruct ms' as [|first rest]; cbn [length Nat.eqb].
  - exists st. split_and!; try done; try (by rewrite ?app_nil_r); eauto.
    + exists []. by rewrite app_nil_r.
    + cbn. lia.
  - rewrite fmap_cons. unfold bind at 1.
    destruct (getMoviePoint_run first 0%float st) as (x & st1 & -> & _ & Hx & Hsub & Ha & Hp & Hs).
    destruct (walkMovies_run (personId actor) 0%float first rest
                (Point3d.mk x (getDateYPosition (getReleaseDate first)) 0%float) st1)
      as (st' & -> & Hsub' & Hnew & Hact & Hoth & Hgrow & Hreg & Hwf).
    exists st'. unfold getActorCurves in *. rewrite Hs, Hp, Ha in *.
    cbn [length]. rewrite Nat.sub_succ, Nat.sub_0_r.
    split_and!; try done.
    + by etrans.
    + intros r Hr.
      destruct (lookup_lt_is_Some_2 rest (r - length (store st))) as [m Hm]; [lia|].
      destruct (Hreg _ _ Hm) as (g & Hg & Hin).
      exists (pairKey (mkMoviePair first m)), g. split; [done|].
      by replace (length (store st) + (r - length (store st))) with r in Hin by lia.
    + intros Hwf0. apply Hwf; [by eapply (wf_table st)|by exists x].
Qed.

(** An actor with exactly one movie: nothing is registered, the movie's point
    is computed all the same. *)
Lemma initActorCurves_single (actor : Person) (m : Movie) (st : DefaultLayoutProvider) :
  getMoviesStarredIn actor = [Some m] →
  ∃ x st', initActorCurves actor st = Some (tt, st')
    ∧ getDirectorXPosition (getDirector m) st = Some (x, st').
Proof.
  intros Hms. unfold initActorCurves. rewrite Hms.
  cbn [length Nat.eqb sortMovies]. unfold bind at 1.
  destruct (getMoviePoint_run m 0%float st) as (x & st1 & -> & Hd & _).
  by exists x, st1.
Qed.

(** ** Overlap resolver *)

Lemma getMoviePoint_moviePoint (st : DefaultLayoutProvider) (m : Movie) :
  is_Some (directorXPositions st !! getDirector m) →
  getMoviePoint (Some m) 0%float st = Some (moviePoint st m, st).
Proof.
  intros [x Hx]. rewrite (getMoviePoint_assigned _ _ _ _ Hx).
  unfold moviePoint. by rewrite Hx.
Qed.

Lemma divergeGroup_run (dir : Vector3d.t) (refs : list CurveRef) :
  ∀ (idx : Z) (st : DefaultLayoutProvider),
  NoDup refs → (∀ r, r ∈ refs → r < length (store st)) →
  ∃ st', divergeGroup dir idx refs st = Some (tt, st')
    ∧ directorXPositions st' = directorXPositions st
    ∧ actorCurvesByActor st' = actorCurvesByActor st
    ∧ actorCurvesByMoviePair st' = actorCurvesByMoviePair st
    ∧ length (store st') = length (store st)
    ∧ (∀ r, r ∉ refs → store st' !! r = store st !! r)
    ∧ (∀ i r ac, refs !! i = Some r → store st !! r = Some ac →
         store st' !! r
         = Some (divergeCurve dir
                   (if i is 0 then idx else ((idx + Z.of_nat i) mod UINT_MAX1)%Z) ac)).
Proof.
  induction refs as [|r0 refs IH]; intros idx st Hnd Hin.
  - exists st. by split_and!.
  - apply NoDup_cons in Hnd as [Hr0 Hnd].
    destruct (lookup_lt_is_Some_2 (store st) r0) as [ac0 Hac0];
      [apply Hin; by left|].
    cbn [divergeGroup]. unfold bind at 1, updateActorCurve at 1. rewrite Hac0.
    set (st1 := mkProvider _ _ _ _).
    destruct (IH ((idx + 1) mod UINT_MAX1)%Z st1 Hnd)
      as (st' & -> & Hd & Ha & Hp & Hl & Hout & Hat).
    { intros r Hr. unfold st1. cbn. rewrite length_insert. apply Hin. by right. }
    exists st'. unfold st1 in *. cbn in Hd, Ha, Hp, Hl, Hout, Hat.
    rewrite length_insert in Hl.
    split_and!; try done.
    + intros r Hr. apply not_elem_of_cons in Hr as [Hne Hr].
      rewrite Hout by done. by rewrite list_lookup_insert_ne.
    + intros [|i] r ac Hi Hac; cbn in Hi.
      * simplify_eq. rewrite Hout by done.
        by rewrite list_lookup_insert_eq by (by eapply lookup_lt_Some).
      * assert (r ≠ r0) as Hne.
        { intros ->. apply Hr0. by eapply list_elem_of_lookup_2. }
        erewrite Hat; [|done|by rewrite list_lookup_insert_ne].
        do 2 f_equal. destruct i as [|i]; [done|].
        rewrite Zplus_mod_idemp_l. f_equal. lia.
Qed.

Lemma entryReady_sameIndex (st st' : DefaultLayoutProvider)
    (e : nat * nat * (MoviePair * list CurveRef)) :
  sameIndex st st' → entryReady st e → entryReady st' e.
Proof. intros (Hd & _ & _ & Hl) H. unfold entryReady. by rewrite Hd, Hl. Qed.

Lemma divergePair_run (e : nat * nat * (MoviePair * list CurveRef))
    (st : DefaultLayoutProvider) :
  entryReady st e →
  ∃ st', divergePair e st = Some (tt, st')
    ∧ sameIndex st st'
    ∧ (∀ r, length e.2.2 ≤ 1 ∨ r ∉ e.2.2 → store st' !! r = store st !! r)
    ∧ (2 ≤ length e.2.2 → ∀ i r ac, e.2.2 !! i = Some r → store st !! r = Some ac →
         store st' !! r
         = Some (divergeCurve (pairDirection st e.2.1) (Z.of_nat i mod UINT_MAX1) ac)).
Proof.
  intros (Hnd & Hin & Hf & Hs). unfold divergePair. cbn [fst snd].
  destruct (Nat.leb_spec (length e.2.2) 1) as [Hle|Hgt].
  - exists st. split_and!; try done. lia.
  - unfold bind. rewrite (getMoviePoint_moviePoint _ _ Hf), (getMoviePoint_moviePoint _ _ Hs).
    destruct (divergeGroup_run (pairDirection st e.2.1) e.2.2 0 st Hnd Hin)
      as (st' & Hrun & Hd & Ha & Hp & Hl & Hout & Hat).
    exists st'. split_and!; try done.
    + intros r [?|Hr]; [lia|by apply Hout].
    + intros _ i r ac Hi Hac. rewrite (Hat _ _ _ Hi Hac).
      by destruct i.
Qed.

Lemma divergePairs_run (entries : list (nat * nat * (MoviePair * list CurveRef))) :
  NoDup entries →
  (∀ e1 e2 r, e1 ∈ entries → e2 ∈ entries → r ∈ e1.2.2 → r ∈ e2.2.2 → e1 = e2) →
  ∀ st : DefaultLayoutProvider,
  (∀ e, e ∈ entries → entryReady st e) →
  ∃ st', divergePairs entries st = Some (tt, st')
    ∧ sameIndex st st'
    ∧ (∀ r, (∀ e, e ∈ entries → length e.2.2 ≤ 1 ∨ r ∉ e.2.2) →
         store st' !! r = store st !! r)
    ∧ (∀ e i r ac, e ∈ entries → 2 ≤ length e.2.2 →
         e.2.2 !! i = Some r → store st !! r = Some ac →
         store st' !! r
         = Some (divergeCurve (pairDirection st e.2.1) (Z.of_nat i mod UINT_MAX1) ac)).
Proof.
  induction entries as [|e0 entries IH]; intros Hnd Hdisj st Hready.
  - exists st. split_and!; try done. intros e ??? He. by apply elem_of_nil in He.
  - apply NoDup_cons in Hnd as [He0 Hnd].
    destruct (divergePair_run e0 st) as (st1 & Hrun1 & Hsame1 & Hout1 & Hat1);
      [apply Hready; by left|].
    destruct (IH Hnd) with (st := st1) as (st' & Hrun & Hsame & Hout & Hat).
    { intros e1 e2 r H1 H2. apply Hdisj; by right. }
    { intros e He. eapply entryReady_sameIndex; [done|]. apply Hready. by right. }
    exists st'. cbn [divergePairs]. unfold bind. rewrite Hrun1, Hrun.
    split_and!; [done| | |].
    + destruct Hsame1 as (?&?&?&?), Hsame as (?&?&?&?). unfold sameIndex.
      split_and!; congruence.
    + intros r Hr. rewrite Hout; [apply Hout1|]; set_solver.
    + intros e i r ac [->|He]%elem_of_cons Hlen Hi Hac.
      * rewrite Hout; [by apply Hat1|].
        intros e He. right. intros Hr. apply He0.
        rewrite (Hdisj e0 e r); [done|by left|by right| |done].
        by eapply list_elem_of_lookup_2.
      * assert (r ∉ e0.2.2) as Hr0.
        { intros Hr. apply He0.
          rewrite (Hdisj e0 e r); [done|by left|by right|done|].
          by eapply list_elem_of_lookup_2. }
        erewrite Hat; [|done..|by rewrite Hout1 by (by right)].
        unfold pairDirection, moviePoint. destruct Hsame1 as (-> & _). done.
Qed.

Lemma divergeOverlappingCurves_run (st : DefaultLayoutProvider) :
  wf st →
  ∃ st', divergeOverlappingCurves st = Some (tt, st')
    ∧ sameIndex st st'
    ∧ (∀ r, (∀ key g, actorCurvesByMoviePair st !! key = Some g → r ∈ g.2 →
               length g.2 ≤ 1) →
         store st' !! r = store st !! r)
    ∧ (∀ key g i r ac, actorCurvesByMoviePair st !! key = Some g →
         2 ≤ length g.2 → g.2 !! i = Some r → store st !! r = Some ac →
         store st' !! r
         = Some (divergeCurve (pairDirection st g.1) (Z.of_nat i mod UINT_MAX1) ac)).
Proof.
  intros [H1 H2 H3 H4]. unfold divergeOverlappingCurves.
  destruct (divergePairs_run (map_to_list (actorCurvesByMoviePair st)))
    with (st := st) as (st' & Hrun & Hsame & Hout & Hat).
  - apply NoDup_map_to_list.
  - intros [k1 g1] [k2 g2] r Hg1%elem_of_map_to_list Hg2%elem_of_map_to_list Hr1 Hr2.
    cbn in *. assert (k1 = k2) as -> by eauto. congruence.
  - intros [k g] Hg%elem_of_map_to_list. unfold entryReady. cbn.
    destruct (H4 _ _ Hg). split_and!; eauto.
  - exists st'. split_and!; try done.
    + intros r Hr. apply Hout. intros [k g] Hg%elem_of_map_to_list. cbn.
      destruct (decide (r ∈ g.2)); eauto.
    + intros key g i r ac Hg. apply (Hat (key, g)). by apply elem_of_map_to_list.
Qed.

(** ** The whole layout *)

Lemma Forall_is_Some_fmap {A : Type} (l : list (option A)) :
  Forall is_Some l → ∃ l', l = Some <$> l'.
Proof.
  induction 1 as [|[x|] l [y Hy] _ [l' ->]]; [by exists []|by exists (x :: l')|done].
Qed.

Lemma initActors_run (actors : list Person) :
  Forall moviesResolve actors →
  ∀ st : DefaultLayoutProvider,
  ∃ st', initActors actors st = Some (tt, st')
    ∧ directorXPositions st ⊆ directorXPositions st'
    ∧ (wf st → wf st').
Proof.
  induction 1 as [|actor actors Hres _ IH]; intros st.
  - by exists st.
  - apply Forall_is_Some_fmap in Hres as [ms Hms].
    destruct (initActorCurves_run actor ms st Hms) as (st1 & Hrun1 & Hsub1 & _ & _ & _ & _ & _ & Hwf1).
    destruct (IH st1) as (st' & Hrun & Hsub & Hwf).
    exists st'. cbn. unfold bind. rewrite Hrun1, Hrun.
    split_and!; [done|by etrans|auto].
Qed.

Lemma init_run (model : Model) :
  Forall moviesResolve (getActors model) →
  ∃ st1 st', initActors (getActors model) emptyProvider = Some (tt, st1)
    ∧ wf st1
    ∧ divergeOverlappingCurves st1 = Some (tt, st')
    ∧ layout model = Some st'.
Proof.
  intros Hres.
  destruct (initActors_run _ Hres emptyProvider) as (st1 & Hrun1 & _ & Hwf).
  specialize (Hwf wf_emptyProvider).
  destruct (divergeOverlappingCurves_run st1 Hwf) as (st' & Hrun & _).
  exists st1, st'. unfold layout, exec, init, bind. rewrite Hrun1, Hrun.
  by split_and!.
Qed.

(** ** Positions once assigned are kept *)

Lemma getMoviePoint_keeps (movie : option Movie) (z : double) (p : Point3d.t)
    (st st' : DefaultLayoutProvider) :
  getMoviePoint movie z st = Some (p, st') →
  directorXPositions st ⊆ directorXPositions st'.
Proof.
  destruct movie as [m|]; [|done].
  destruct (getMoviePoint_run m z st) as (x & st1 & -> & _ & _ & Hsub & _).
  by intros [= _ <-].
Qed.




Lemma divergeGroup_keeps (dir : Vector3d.t) (refs : list CurveRef) :
  ∀ (idx : Z) (st st' : DefaultLayoutProvider),
  divergeGroup dir idx refs st = Some (tt, st') →
  directorXPositions st' = directorXPositions st.
Proof.
  induction refs as [|r refs IH]; intros idx st st'; cbn.
  - by intros [= <-].
  - unfold bind, updateActorCurve at 1.
    destruct (store st !! r); [|done]. by intros ->%IH.
Qed.

Lemma divergePairs_keeps (entries : list (nat * nat * (MoviePair * list CurveRef))) :
  ∀ st st' : DefaultLayoutProvider,
  divergePairs entries st = Some (tt, st') →
  directorXPositions st ⊆ directorXPositions st'.
Proof.
  induction entries as [|e entries IH]; intros st st'; cbn.
  - by intros [= <-].
  - unfold bind at 1.
    destruct (divergePair e st) as [[[] st1]|] eqn:E; [|done].
    intros Hrun%IH. etrans; [|done]. clear Hrun.
    unfold divergePair in E. destruct (_ <=? 1); [by injection E as <-|].
    unfold bind in E.
    destruct (getMoviePoint _ 0 st) as [[m1 st2]|] eqn:E1; [|done].
    destruct (getMoviePoint _ 0 st2) as [[m2 st3]|] eqn:E2; [|done].
    apply divergeGroup_keeps in E. rewrite E.
    etrans; by eapply getMoviePoint_keeps.
Qed.

Lemma layout_keeps (model : Model) (st1 st' : DefaultLayoutProvider)
    (d : option PersonId) (x : double) :
  initActors (getActors model) emptyProvider = Some (tt, st1) →
  directorXPositions st1 !! d = Some x →
  layout model = Some st' →
  directorXPositions st' !! d = Some x.
Proof.
  unfold layout, exec, init, bind. intros -> Hx.
  destruct (divergeOverlappingCurves st1) as [[[] st2]|] eqn:E; [|done].
  intros [= <-]. eapply lookup_weaken; [done|]. by eapply divergePairs_keeps.
Qed.

(** ** Small integers in binary64 *)

Lemma Zpos_iter_xO (p k : positive) : Zpos (Pos.iter xO p k) = (Zpos p * 2 ^ Zpos k)%Z.
Proof.
  induction k as [|k IH] using Pos.peano_ind.
  - cbn. lia.
  - rewrite Pos.iter_succ, Pos2Z.inj_xO, IH, Pos2Z.inj_succ, Z.pow_succ_r by lia. lia.
Qed.

Lemma Zpos_shiftp (p : positive) (k : Z) :
  (0 ≤ k)%Z → Zpos (shiftp p k) = (Zpos p * 2 ^ k)%Z.
Proof.
  destruct k as [|k|k]; cbn [shiftp]; intros; [lia| |lia].
  apply Zpos_iter_xO.
Qed.

Lemma digits2_pos_iter_xO (p k : positive) :
  Zpos (digits2_pos (Pos.iter xO p k)) = (Zpos (digits2_pos p) + Zpos k)%Z.
Proof.
  induction k as [|k IH] using Pos.peano_ind.
  - cbn. lia.
  - rewrite Pos.iter_succ. cbn [digits2_pos]. rewrite Pos2Z.inj_succ, IH. lia.
Qed.

Lemma digits2_pos_shiftp (p : positive) (k : Z) :
  (0 ≤ k)%Z → Zpos (digits2_pos (shiftp p k)) = (Zpos (digits2_pos p) + k)%Z.
Proof.
  destruct k as [|k|k]; cbn [shiftp]; intros; [lia| |lia].
  apply digits2_pos_iter_xO.
Qed.

Lemma digits2_pos_bounds (p : positive) :
  (2 ^ (Zpos (digits2_pos p) - 1) ≤ Zpos p < 2 ^ Zpos (digits2_pos p))%Z.
Proof.
  induction p as [p IH|p IH|]; cbn [digits2_pos]; [| |cbn; lia].
  all: rewrite Pos2Z.inj_succ.
  all: replace (Z.succ (Zpos (digits2_pos p)) - 1)%Z with (Z.succ (Zpos (digits2_pos p) - 1)) by lia.
  all: rewrite !Z.pow_succ_r by lia; lia.
Qed.

Lemma digits2_pos_le (p : positive) (k : Z) :
  (Zpos p < 2 ^ k)%Z → (Zpos (digits2_pos p) ≤ k)%Z.
Proof.
  intros Hp. destruct (digits2_pos_bounds p) as [Hlo _].
  destruct (Z.le_gt_cases (Zpos (digits2_pos p)) k) as [|Hgt]; [done|].
  assert (2 ^ k ≤ 2 ^ (Zpos (digits2_pos p) - 1))%Z; [|lia].
  apply Z.pow_le_mono_r; lia.
Qed.

Lemma digits2_pos_mono (p q : positive) :
  (p ≤ q)%positive → (Zpos (digits2_pos p) ≤ Zpos (digits2_pos q))%Z.
Proof.
  intros Hpq. apply digits2_pos_le.
  destruct (digits2_pos_bounds q). lia.
Qed.

Lemma shl_align_le (m : positive) (e e' : Z) :
  (e' ≤ e)%Z → shl_align m e e' = (shiftp m (e - e'), e').
Proof.
  intros Hle. unfold shl_align, shiftp.
  destruct (e' - e)%Z as [|d|d] eqn:E; [| lia |].
  - replace (e - e')%Z with 0%Z by lia. f_equal. lia.
  - replace (e - e')%Z with (Zpos d) by lia. done.
Qed.

Lemma iter_pos_shr_1 (k m : positive) :
  SpecFloat.iter_pos shr_1 k (Build_shr_record (Zpos (Pos.iter xO m k)) false false)
  = Build_shr_record (Zpos m) false false.
Proof.
  assert (Hiter : ∀ (f : shr_record → shr_record) n x, SpecFloat.iter_pos f n x = Pos.iter f x n).
  { intros f n. induction n as [n IH|n IH|]; intros x; cbn.
    - by rewrite !IH, !Pos.iter_swap.
    - by rewrite !IH.
    - done. }
  rewrite Hiter. revert m.
  induction k as [|k IH] using Pos.peano_ind; intros m.
  - done.
  - rewrite Pos.iter_succ_r, (Pos.iter_succ k _ xO). cbn [shr_1 orb]. apply IH.
Qed.

(** A mantissa of 53 digits with an exponent in range is kept as it is. *)
Lemma binary_round_aux_canonical (s : bool) (m : positive) (e : Z) :
  Zpos (digits2_pos m) = 53%Z → (-1074 ≤ e ≤ 971)%Z →
  binary_round_aux prec emax s (Zpos m) e loc_Exact = S754_finite s m e.
Proof.
  intros Hd He.
  unfold binary_round_aux, shr_fexp, fexp, emin, prec, emax. cbn [Zdigits2 shr_record_of_loc].
  rewrite Hd.
  replace (Z.max (53 + e - 53) (3 - 1024 - 53) - e)%Z with 0%Z by lia.
  cbn [shr shr_m loc_of_shr_record round_nearest_even Zdigits2 shr_record_of_loc].
  rewrite Hd.
  replace (Z.max (53 + e - 53) (3 - 1024 - 53) - e)%Z with 0%Z by lia.
  cbn [shr shr_m].
  destruct (Z.leb_spec e (1024 - 53)); [done|lia].
Qed.

(** A mantissa of 53 digits followed by [k] zero bits loses them exactly. *)
Lemma binary_round_aux_shifted (s : bool) (m : positive) (k e : Z) :
  Zpos (digits2_pos m) = 53%Z → (0 < k)%Z → (-1074 ≤ e + k ≤ 971)%Z →
  binary_round_aux prec emax s (Zpos (shiftp m k)) e loc_Exact
  = S754_finite s m (e + k).
Proof.
  intros Hd Hk He.
  unfold binary_round_aux, shr_fexp, fexp, emin, prec, emax.
  cbn [Zdigits2 shr_record_of_loc].
  rewrite digits2_pos_shiftp, Hd by lia.
  replace (Z.max (53 + k + e - 53) (3 - 1024 - 53) - e)%Z with k by lia.
  destruct k as [|k|k]; [lia| |lia]. cbn [shr shiftp].
  rewrite iter_pos_shr_1.
  cbn [shr_m loc_of_shr_record round_nearest_even Zdigits2 shr_record_of_loc].
  rewrite Hd.
  replace (Z.max (53 + (e + Zpos k) - 53) (3 - 1024 - 53) - (e + Zpos k))%Z
    with 0%Z by lia.
  cbn [shr shr_m].
  destruct (Z.leb_spec (e + Zpos k) (1024 - 53)); [done|lia].
Qed.

(** Rounding a mantissa of at most 53 digits is padding it to 53 digits. *)
Lemma binary_round_small (s : bool) (q : positive) (e : Z) :
  (Zpos (digits2_pos q) ≤ 53)%Z →
  (-1074 ≤ Zpos (digits2_pos q) + e - 53 ≤ 971)%Z →
  binary_round prec emax s q e
  = S754_finite s (shiftp q (53 - Zpos (digits2_pos q)))
                  (Zpos (digits2_pos q) + e - 53).
Proof.
  intros Hd He. unfold binary_round, fexp, emin, prec, emax.
  replace (Z.max (Zpos (digits2_pos q) + e - 53) (3 - 1024 - 53))
    with (Zpos (digits2_pos q) + e - 53)%Z by lia.
  rewrite shl_align_le by lia.
  replace (e - (Zpos (digits2_pos q) + e - 53))%Z with (53 - Zpos (digits2_pos q))%Z by lia.
  apply binary_round_aux_canonical; [|lia].
  rewrite digits2_pos_shiftp by lia. lia.
Qed.

(** [DISTANCE] times a positive integer below 2^53, exactly. *)
Lemma SF64mul_DISTANCE (p : positive) :
  (Zpos (digits2_pos p) ≤ 53)%Z →
  SF64mul (Prim2SF DISTANCE) (binary_normalize prec emax (Zpos p) 0 false)
  = S754_finite false (shiftp p (53 - Zpos (digits2_pos p)))
                      (Zpos (digits2_pos p) - 51).
Proof.
  intros Hd. pose proof (Pos2Z.is_pos (digits2_pos p)) as Hpos.
  cbn [binary_normalize]. rewrite binary_round_small by lia.
  replace (Prim2SF DISTANCE) with (S754_finite false (shiftp 1 52) (-50))
    by (vm_compute; reflexivity).
  unfold SF64mul, SFmul. cbn [xorb].
  set (m := shiftp p _).
  assert (Zpos (digits2_pos m) = 53%Z) as Hm.
  { unfold m. rewrite digits2_pos_shiftp by lia. lia. }
  replace (shiftp 1 52 * m)%positive with (shiftp m 52).
  2:{ apply Pos2Z.inj. rewrite Pos2Z.inj_mul, !Zpos_shiftp by lia. lia. }
  rewrite binary_round_aux_shifted by lia. f_equal. lia.
Qed.

(** The difference of [DISTANCE] times two consecutive positive integers. *)
Lemma SF64sub_consecutive (pA pB : positive) :
  Zpos pA = (Zpos pB + 1)%Z →
  (Zpos (digits2_pos pA) ≤ 52)%Z →
  SF64sub
    (S754_finite false (shiftp pA (53 - Zpos (digits2_pos pA))) (Zpos (digits2_pos pA) - 51))
    (S754_finite false (shiftp pB (53 - Zpos (digits2_pos pB))) (Zpos (digits2_pos pB) - 51))
  = S754_finite false (shiftp 1 52) (-50).
Proof.
  intros Hsucc HdA.
  assert (Zpos (digits2_pos pB) ≤ Zpos (digits2_pos pA))%Z as Hmono
    by (apply digits2_pos_mono; lia).
  pose proof (Pos2Z.is_pos (digits2_pos pB)) as HdB.
  set (dA := Zpos (digits2_pos pA)) in *. set (dB := Zpos (digits2_pos pB)) in *.
  unfold SF64sub, SFsub. cbn [cond_Zopp].
  rewrite Z.min_r by lia. rewrite !shl_align_le by lia. cbn [fst].
  replace (Zpos (shiftp (shiftp pA (53 - dA)) (dA - 51 - (dB - 51)))
           - Zpos (shiftp (shiftp pB (53 - dB)) (dB - 51 - (dB - 51))))%Z
    with (Zpos (shiftp 1 (53 - dB))).
  2:{ rewrite !Zpos_shiftp by lia. rewrite Hsucc.
      replace (dB - 51 - (dB - 51))%Z with 0%Z by lia.
      rewrite <- Z.mul_assoc, <- Z.pow_add_r by lia.
      replace (53 - dA + (dA - 51 - (dB - 51)))%Z with (53 - dB)%Z by lia.
      rewrite Z.pow_0_r. lia. }
  cbn [binary_normalize].
  assert (Zpos (digits2_pos (shiftp 1 (53 - dB))) = 54 - dB)%Z as Hd.
  { rewrite digits2_pos_shiftp by lia. cbn. lia. }
  rewrite binary_round_small by (rewrite Hd; lia).
  rewrite Hd. f_equal; [|lia].
  apply Pos2Z.inj. rewrite !Zpos_shiftp by lia.
  rewrite <- Z.mul_assoc, <- Z.pow_add_r by lia. do 2 f_equal. lia.
Qed.

(** Below 2^51 the positions of consecutive slots differ by [DISTANCE],
    exactly. *)
Lemma slot_gap_exact (z : Z) :
  (0 ≤ z < EXACT_SLOTS)%Z →
  (DISTANCE * of_uint (z + 1) - DISTANCE * of_uint z)%float = DISTANCE.
Proof.
  unfold EXACT_SLOTS. intros Hz.
  destruct z as [|p|p]; [vm_compute; reflexivity| |lia].
  apply Prim2SF_inj. unfold of_uint.
  rewrite sub_spec, !mul_spec, !of_uint63_spec, !Uint63.of_Z_spec.
  assert (Uint63.wB = 2 ^ 63)%Z as -> by reflexivity.
  rewrite !Z.mod_small by lia.
  change (Zpos p + 1)%Z with (Zpos (p + 1)).
  assert (Zpos (digits2_pos (p + 1)) ≤ 52)%Z as HdA.
  { apply digits2_pos_le. lia. }
  assert (Zpos (digits2_pos p) ≤ 52)%Z as HdB.
  { apply digits2_pos_le. lia. }
  rewrite !SF64mul_DISTANCE by lia.
  rewrite SF64sub_consecutive by (done || lia).
  vm_compute. reflexivity.
Qed.

(** ** The slots of the director axis *)

(** C5: from an empty table, let [ds] be the directors queried, in order.
    The director whose first query comes after those of [k] other directors
    (the [k+1]-th distinct director, at index [k] of [firstQueried ds])
    receives [DISTANCE * k] with [DISTANCE = 4.0], every query for that
    director returns this position, and the table holds it at the end. The
    position of the director assigned next is [DISTANCE] further, exactly
    (within [EXACT_SLOTS] directors, where binary64 holds these integers). *)
Theorem director_slots (ds : list (option PersonId)) (st : DefaultLayoutProvider)
    (j k : nat) (d : option PersonId) :
  directorXPositions st = ∅ →
  ds !! j = Some d →
  firstQueried ds !! k = Some d →
  ∃ xs st',
    queryDirectors ds st = Some (xs, st')
    ∧ DISTANCE = 4.0%float
    ∧ xs !! j = Some (DISTANCE * of_uint (Z.of_nat k))%float
    ∧ directorXPositions st' !! d = Some (DISTANCE * of_uint (Z.of_nat k))%float
    ∧ (∀ d' x x', firstQueried ds !! S k = Some d' → (Z.of_nat (S k) < EXACT_SLOTS)%Z →
         directorXPositions st' !! d = Some x →
         directorXPositions st' !! d' = Some x' →
         (x' - x)%float = DISTANCE).
Proof.
  intros Hempty Hj Hk.
  destruct (queryDirectors_slots ds [] st) as (xs & st' & Hrun & (_ & _ & Hslot) & _ & Hxs).
  { rewrite Hempty. apply slotsOf_empty. }
  exists xs, st'. split_and!; [done|done| | |].
  - rewrite (Hxs _ _ Hj). by apply Hslot.
  - by apply Hslot.
  - intros d' x x' Hk' Hlt Hx Hx'.
    rewrite (Hslot _ _ Hk) in Hx. rewrite (Hslot _ _ Hk') in Hx'. simplify_eq.
    replace (Z.of_nat (S k)) with (Z.of_nat k + 1)%Z in * by lia.
    apply slot_gap_exact. lia.
Qed.

Lemma director_slots_witness :
  ∃ xs st',
    queryDirectors [Some 7; None; Some 7; Some 9; None] emptyProvider = Some (xs, st')
    ∧ DISTANCE = 4.0%float
    ∧ xs !! 4 = Some (DISTANCE * of_uint (Z.of_nat 1))%float
    ∧ directorXPositions st' !! None = Some (DISTANCE * of_uint (Z.of_nat 1))%float
    ∧ (∀ d' x x', firstQueried [Some 7; None; Some 7; Some 9; None] !! 2 = Some d' →
         (Z.of_nat 2 < EXACT_SLOTS)%Z →
         directorXPositions st' !! None = Some x →
         directorXPositions st' !! d' = Some x' →
         (x' - x)%float = DISTANCE).
Proof.
  apply (director_slots [Some 7; None; Some 7; Some 9; None] emptyProvider 4 1 None);
    reflexivity.
Defined.

(** ** Different directors, different positions *)

(** Below 2^51 the positions of different slots are different numbers. *)
Lemma slot_position_inj (z z' : Z) :
  (0 ≤ z < EXACT_SLOTS)%Z → (0 ≤ z' < EXACT_SLOTS)%Z →
  (DISTANCE * of_uint z)%float = (DISTANCE * of_uint z')%float → z = z'.
Proof.
  unfold EXACT_SLOTS. intros Hz Hz' Heq.
  apply (f_equal Prim2SF) in Heq. unfold of_uint in Heq.
  rewrite !mul_spec, !of_uint63_spec, !Uint63.of_Z_spec in Heq.
  assert (Uint63.wB = 2 ^ 63)%Z as Hw by reflexivity. rewrite Hw in Heq.
  rewrite !Z.mod_small in Heq by lia.
  assert (Hzero : ∀ p, (Zpos (digits2_pos p) ≤ 53)%Z →
    SF64mul (Prim2SF DISTANCE) (binary_normalize prec emax 0 0 false)
    ≠ SF64mul (Prim2SF DISTANCE) (binary_normalize prec emax (Zpos p) 0 false)).
  { intros p Hp. rewrite SF64mul_DISTANCE by done. by vm_compute. }
  destruct z as [|p|p], z' as [|p'|p']; try lia; try done.
  - exfalso. eapply Hzero; [|done]. apply digits2_pos_le. lia.
  - exfalso. eapply Hzero; [|done]. apply digits2_pos_le. lia.
  - assert (Zpos (digits2_pos p) ≤ 53)%Z as Hd by (apply digits2_pos_le; lia).
    assert (Zpos (digits2_pos p') ≤ 53)%Z as Hd' by (apply digits2_pos_le; lia).
    rewrite !SF64mul_DISTANCE in Heq by done.
    injection Heq as Hm He.
    assert (Zpos (digits2_pos p) = Zpos (digits2_pos p')) as Hdd by lia.
    rewrite Hdd in Hm. apply (f_equal Zpos) in Hm.
    rewrite !Zpos_shiftp in Hm by lia.
    apply Z.mul_reg_r in Hm; [done|].
    apply Z.pow_nonzero; lia.
Qed.

Lemma slotted_emptyProvider : slotted emptyProvider.
Proof. exists []. apply slotsOf_empty. Qed.

Lemma slotted_table (st st' : DefaultLayoutProvider) :
  directorXPositions st' = directorXPositions st → slotted st → slotted st'.
Proof. unfold slotted. by intros ->. Qed.

Lemma getMoviePoint_slotted (movie : option Movie) (z : double) (p : Point3d.t)
    (st st' : DefaultLayoutProvider) :
  getMoviePoint movie z st = Some (p, st') → slotted st → slotted st'.
Proof.
  destruct movie as [m|]; [|done].
  destruct (getMoviePoint_run m z st) as (x & st1 & -> & Hq & _).
  intros [= _ <-] [seen Hs]. eexists. by eapply slotsOf_query.
Qed.

Lemma walkMovies_slotted (actor : PersonId) (z : double) (last : Movie)
    (rest : list (option Movie)) :
  ∀ (lastAnchor : Point3d.t) (st st' : DefaultLayoutProvider),
  walkMovies actor z last lastAnchor rest st = Some (tt, st') →
  slotted st → slotted st'.
Proof.
  induction rest as [|[m|] rest IH]; intros lastAnchor st st'.
  - by intros [= <-].
  - rewrite walkMovies_cons.
    destruct (getMoviePoint (Some m) z st) as [[anchor st1]|] eqn:E; [|done].
    intros Hrun Hs. eapply IH; [exact Hrun|].
    eapply (slotted_table st1); [done|].
    eapply getMoviePoint_slotted; [exact E|exact Hs].
  - done.
Qed.

Lemma initActorCurves_slotted (actor : Person) (st st' : DefaultLayoutProvider) :
  initActorCurves actor st = Some (tt, st') → slotted st → slotted st'.
Proof.
  unfold initActorCurves.
  destruct (length (getMoviesStarredIn actor) =? 0); [by intros [= <-]|].
  destruct (sortMovies _) as [[|first rest]|]; [done| |done].
  unfold bind.
  destruct (getMoviePoint first 0 st) as [[anchor st1]|] eqn:E; [|done].
  destruct first as [m|]; [|done].
  intros Hrun Hs. eapply walkMovies_slotted; [exact Hrun|].
  eapply getMoviePoint_slotted; [exact E|exact Hs].
Qed.

Lemma initActors_slotted (actors : list Person) :
  ∀ st st' : DefaultLayoutProvider,
  initActors actors st = Some (tt, st') → slotted st → slotted st'.
Proof.
  induction actors as [|actor actors IH]; intros st st'; cbn.
  - by intros [= <-].
  - unfold bind.
    destruct (initActorCurves actor st) as [[[] st1]|] eqn:E; [|done].
    intros Hrun Hs. eapply IH; [exact Hrun|].
    eapply initActorCurves_slotted; [exact E|exact Hs].
Qed.

Lemma divergePairs_slotted (entries : list (nat * nat * (MoviePair * list CurveRef))) :
  ∀ st st' : DefaultLayoutProvider,
  divergePairs entries st = Some (tt, st') → slotted st → slotted st'.
Proof.
  induction entries as [|e entries IH]; intros st st'; cbn.
  - by intros [= <-].
  - unfold bind at 1.
    destruct (divergePair e st) as [[[] st1]|] eqn:E; [|done].
    intros Hrun Hs. eapply IH; [exact Hrun|]. clear Hrun.
    unfold divergePair in E. destruct (_ <=? 1); [by injection E as <-|].
    unfold bind in E.
    destruct (getMoviePoint _ 0 st) as [[m1 st2]|] eqn:E1; [|done].
    destruct (getMoviePoint _ 0 st2) as [[m2 st3]|] eqn:E2; [|done].
    apply divergeGroup_keeps in E. eapply slotted_table; [done|].
    eapply getMoviePoint_slotted; [exact E2|].
    eapply getMoviePoint_slotted; [exact E1|exact Hs].
Qed.

Lemma layout_slotted (model : Model) (st : DefaultLayoutProvider) :
  layout model = Some st → slotted st.
Proof.
  unfold layout, exec, init, bind.
  destruct (initActors _ emptyProvider) as [[[] st1]|] eqn:E1; [|done].
  destruct (divergeOverlappingCurves st1) as [[[] st2]|] eqn:E2; [|done].
  intros [= <-]. eapply divergePairs_slotted; [exact E2|].
  eapply initActors_slotted; [exact E1|]. apply slotted_emptyProvider.
Qed.

(** In a table filled from the empty table, different directors have
    different positions. *)
Lemma slotted_distinct (st : DefaultLayoutProvider) (d d' : option PersonId)
    (x x' : double) :
  slotted st →
  (Z.of_nat (size (directorXPositions st)) < EXACT_SLOTS)%Z →
  d ≠ d' →
  directorXPositions st !! d = Some x →
  directorXPositions st !! d' = Some x' →
  x ≠ x'.
Proof.
  intros (seen & Hsize & Hdom & Hslot) Hlt Hne Hx Hx' ->.
  assert (d ∈ seen) as [k Hk]%list_elem_of_lookup by (apply Hdom; by rewrite Hx).
  assert (d' ∈ seen) as [k' Hk']%list_elem_of_lookup by (apply Hdom; by rewrite Hx').
  pose proof (lookup_lt_Some _ _ _ Hk). pose proof (lookup_lt_Some _ _ _ Hk').
  rewrite (Hslot _ _ Hk) in Hx. rewrite (Hslot _ _ Hk') in Hx'.
  assert (Z.of_nat k = Z.of_nat k') as Hkk.
  { apply slot_position_inj; [lia..|]. congruence. }
  apply Nat2Z.inj in Hkk. subst k'. rewrite Hk in Hk'. by injection Hk'.
Qed.

(** ** The curves of an actor *)

(** C3: for an actor whose movie references resolve, [initActorCurves]
    ends and appends [N - 1] curves to the store, [N] the number of movies
    starred in (none when [N] is 0 or 1: the subtraction stops at 0). Each new
    curve is appended to the actor's sequence, and is held by a group of the
    movie-pair map. *)
Theorem curve_builder_count (actor : Person) (st : DefaultLayoutProvider) :
  moviesResolve actor →
  ∃ st' new,
    initActorCurves actor st = Some (tt, st')
    ∧ store st' = store st ++ new
    ∧ length new = length (getMoviesStarredIn actor) - 1
    ∧ getActorCurves (personId actor) st'
      = getActorCurves (personId actor) st
        ++ seq (length (store st)) (length (getMoviesStarredIn actor) - 1)
    ∧ (length (getMoviesStarredIn actor) ≤ 1 →
         getActorCurves (personId actor) st' = getActorCurves (personId actor) st)
    ∧ (getActorCurves (personId actor) st = [] →
         length (getActorCurves (personId actor) st')
         = length (getMoviesStarredIn actor) - 1)
    ∧ (∀ r, r ∈ seq (length (store st)) (length (getMoviesStarredIn actor) - 1) →
         r ∈ getActorCurves (personId actor) st'
         ∧ ∃ key g, actorCurvesByMoviePair st' !! key = Some g ∧ r ∈ g.2).
Proof.
  intros [ms Hms]%Forall_is_Some_fmap.
  destruct (initActorCurves_run actor ms st Hms)
    as (st' & Hrun & _ & (new & Hstore & Hlen) & Hact & _ & _ & Hreg & _).
  rewrite Hms, length_fmap.
  exists st', new. split_and!; try done.
  - intros Hle. rewrite Hact. replace (length ms - 1) with 0 by lia.
    apply app_nil_r.
  - intros Hnil. rewrite Hact, Hnil. cbn. by rewrite length_seq.
  - intros r Hr. split.
    + rewrite Hact. apply elem_of_app. by right.
    + apply Hreg. apply elem_of_seq in Hr. lia.
Qed.

Lemma curve_builder_count_witness :
  ∃ st' new,
    initActorCurves actorA emptyProvider = Some (tt, st')
    ∧ store st' = store emptyProvider ++ new
    ∧ length new = length (getMoviesStarredIn actorA) - 1
    ∧ getActorCurves (personId actorA) st'
      = getActorCurves (personId actorA) emptyProvider
        ++ seq (length (store emptyProvider)) (length (getMoviesStarredIn actorA) - 1)
    ∧ (length (getMoviesStarredIn actorA) ≤ 1 →
         getActorCurves (personId actorA) st' = getActorCurves (personId actorA) emptyProvider)
    ∧ (getActorCurves (personId actorA) emptyProvider = [] →
         length (getActorCurves (personId actorA) st')
         = length (getMoviesStarredIn actorA) - 1)
    ∧ (∀ r, r ∈ seq (length (store emptyProvider)) (length (getMoviesStarredIn actorA) - 1) →
         r ∈ getActorCurves (personId actorA) st'
         ∧ ∃ key g, actorCurvesByMoviePair st' !! key = Some g ∧ r ∈ g.2).
Proof.
  apply (curve_builder_count actorA emptyProvider).
  unfold moviesResolve. cbn. repeat constructor; eauto.
Defined.

(** C10: for an actor with exactly one movie, [initActorCurves] leaves both
    index maps and the store as they are, and leaves the table as the query for
    the movie's director leaves it. When that director had no position, the
    table has one more entry, and a director with no position yet is given
    [DISTANCE * (size + 1)] afterwards, where a query before would have given
    [DISTANCE * size]. *)
Theorem single_movie_actor (actor : Person) (m : Movie) (st : DefaultLayoutProvider) :
  getMoviesStarredIn actor = [Some m] →
  ∃ x st',
    initActorCurves actor st = Some (tt, st')
    ∧ getDirectorXPosition (getDirector m) st = Some (x, st')
    ∧ actorCurvesByActor st' = actorCurvesByActor st
    ∧ actorCurvesByMoviePair st' = actorCurvesByMoviePair st
    ∧ store st' = store st
    ∧ directorXPositions st' !! getDirector m = Some x
    ∧ (directorXPositions st !! getDirector m = None →
         size (directorXPositions st') = S (size (directorXPositions st))
         ∧ ∀ d, directorXPositions st' !! d = None →
             fst <$> getDirectorXPosition d st
             = Some (DISTANCE * of_uint (Z.of_nat (size (directorXPositions st))))%float
             ∧ fst <$> getDirectorXPosition d st'
               = Some (DISTANCE * of_uint (Z.of_nat (S (size (directorXPositions st)))))%float).
Proof.
  intros Hms.
  destruct (initActorCurves_single actor m st Hms) as (x & st' & Hrun & Hq).
  destruct (getDirectorXPosition_run (getDirector m) st)
    as (x' & st1 & Hq' & Hx & Hsub & Ha & Hp & Hs).
  rewrite Hq in Hq'. simplify_eq.
  exists x', st1. split_and!; try done.
  intros Hnone. rewrite (getDirectorXPosition_fresh _ _ Hnone) in Hq. simplify_eq.
  cbn. rewrite map_size_insert_None by done. split; [done|].
  intros d Hd.
  assert (directorXPositions st !! d = None) as Hd0.
  { destruct (decide (getDirector m = d)) as [<-|Hne].
    - by rewrite lookup_insert_eq in Hd.
    - by rewrite lookup_insert_ne in Hd. }
  rewrite (getDirectorXPosition_fresh _ _ Hd0).
  rewrite getDirectorXPosition_fresh by done. cbn.
  by rewrite map_size_insert_None.
Qed.

Lemma single_movie_actor_witness :
  ∃ x st',
    initActorCurves actorD emptyProvider = Some (tt, st')
    ∧ getDirectorXPosition (getDirector movie3) emptyProvider = Some (x, st')
    ∧ actorCurvesByActor st' = actorCurvesByActor emptyProvider
    ∧ actorCurvesByMoviePair st' = actorCurvesByMoviePair emptyProvider
    ∧ store st' = store emptyProvider
    ∧ directorXPositions st' !! getDirector movie3 = Some x
    ∧ (directorXPositions emptyProvider !! getDirector movie3 = None →
         size (directorXPositions st') = S (size (directorXPositions emptyProvider))
         ∧ ∀ d, directorXPositions st' !! d = None →
             fst <$> getDirectorXPosition d emptyProvider
             = Some (DISTANCE * of_uint (Z.of_nat (size (directorXPositions emptyProvider))))%float
             ∧ fst <$> getDirectorXPosition d st'
               = Some (DISTANCE * of_uint (Z.of_nat (S (size (directorXPositions emptyProvider)))))%float).
Proof. apply (single_movie_actor actorD movie3 emptyProvider). reflexivity. Defined.

(** ** Dampening and clamp *)

Lemma SFltb_above (mc : positive) (ec : Z) (s : spec_float) :
  SFltb (S754_finite false mc ec) s = true →
  SFleb (SFabs s) (S754_finite false mc ec) = false
  ∧ SFltb s (S754_zero false) = false
  ∧ SFltb (S754_zero false) s = true.
Proof.
  unfold SFltb, SFleb.
  destruct s as [[]|[]| |[] m e]; cbn; try done.
  change (Pos.compare_cont Eq) with Pos.compare.
  case_compare; cbn; try done; try lia.
Qed.

Lemma SFltb_below (mc : positive) (ec : Z) (s : spec_float) :
  SFltb s (S754_finite true mc ec) = true →
  SFleb (SFabs s) (S754_finite false mc ec) = false
  ∧ SFltb s (S754_zero false) = true.
Proof.
  unfold SFltb, SFleb.
  destruct s as [[]|[]| |[] m e]; cbn; try done.
  change (Pos.compare_cont Eq) with Pos.compare.
  case_compare; cbn; try done; try lia.
Qed.

Lemma Prim2SF_MAX_DELTA :
  Prim2SF MAX_DELTA = S754_finite false 5629499534213120 (-50)
  ∧ Prim2SF (- MAX_DELTA) = S754_finite true 5629499534213120 (-50)
  ∧ Prim2SF 0 = S754_zero false.
Proof. split; [|split]; vm_compute; reflexivity. Qed.

Lemma float_above_MAX_DELTA (d : float) :
  PrimFloat.ltb MAX_DELTA d = true →
  PrimFloat.leb (PrimFloat.abs d) MAX_DELTA = false
  ∧ PrimFloat.ltb d 0 = false ∧ PrimFloat.ltb 0 d = true.
Proof.
  destruct Prim2SF_MAX_DELTA as (Hc & _ & Hz).
  rewrite !ltb_spec, leb_spec, abs_spec, Hc, Hz. apply SFltb_above.
Qed.

Lemma float_below_MAX_DELTA (d : float) :
  PrimFloat.ltb d (- MAX_DELTA) = true →
  PrimFloat.leb (PrimFloat.abs d) MAX_DELTA = false
  ∧ PrimFloat.ltb d 0 = true.
Proof.
  destruct Prim2SF_MAX_DELTA as (Hc & Hn & Hz).
  rewrite !ltb_spec, leb_spec, abs_spec, Hc, Hn, Hz. apply SFltb_below.
Qed.

(** The clamp of [initActorCurves]: a delta of magnitude at most [MAX_DELTA] is
    kept, a larger one becomes [MAX_DELTA] with the sign of the delta. *)
Lemma clampDelta_clamps (d : float) :
  MAX_DELTA = 5.0%float
  ∧ (PrimFloat.leb (PrimFloat.abs d) MAX_DELTA = true → clampDelta d = d)
  ∧ (PrimFloat.ltb MAX_DELTA d = true → clampDelta d = MAX_DELTA)
  ∧ (PrimFloat.ltb d (- MAX_DELTA) = true → clampDelta d = (- MAX_DELTA)%float).
Proof.
  unfold clampDelta, sign. split; [done|]. split; [|split].
  - by intros ->.
  - intros (-> & -> & ->)%float_above_MAX_DELTA. vm_compute. reflexivity.
  - intros (-> & ->)%float_below_MAX_DELTA. vm_compute. reflexivity.
Qed.

(** The handles of a step of the walk: the anchors moved along the date axis
    by the clamped delta, the delta being the difference of the anchors' date
    positions, divided by 3.0 when the compared director references are equal. *)
Lemma stepCurve_handles (damp : bool) (lastAnchor anchor : Point3d.t) :
  let nominalDelta := (Point3d.y anchor - Point3d.y lastAnchor)%float in
  let delta := clampDelta (if damp then nominalDelta / 3.0 else nominalDelta)%float in
  stepCurve damp lastAnchor anchor
  = mkBezierCurve lastAnchor
      (Point3d.mk (Point3d.x lastAnchor) (Point3d.y lastAnchor + delta)%float
                  (Point3d.z lastAnchor))
      (Point3d.mk (Point3d.x anchor) (Point3d.y anchor - delta)%float (Point3d.z anchor))
      anchor.
Proof. by destruct damp. Qed.

(** C4, where the code departs from it. [actorE] starred in [movie2]
    (director 10), [movie3] and [movie4] (both director 11). The second step
    of the walk goes from [movie3] to [movie4], which have the same director,
    yet its curve is not dampened: [lastMoviePtr] still designates [movie2],
    whose director is compared, and under whose pair with [movie4] the curve is
    registered. And for [actorF], whose two movies have an expired director
    reference, the two null pointers compare equal and the curve is dampened. *)
Lemma walk_compares_first_movie :
  initActorCurves actorE emptyProvider = Some (tt, exampleWalkE)
  ∧ sameDirector movie3 movie4 = true
  ∧ sameDirector movie2 movie4 = false
  ∧ store exampleWalkE !! 1
    = Some (newActorCurve 104
              (stepCurve false (moviePoint exampleWalkE movie3)
                               (moviePoint exampleWalkE movie4)))
  ∧ PrimFloat.eqb
      (Point3d.y (getP1 (stepCurve false (moviePoint exampleWalkE movie3)
                                         (moviePoint exampleWalkE movie4))))
      (Point3d.y (getP1 (stepCurve true (moviePoint exampleWalkE movie3)
                                        (moviePoint exampleWalkE movie4)))) = false
  ∧ actorCurvesByMoviePair exampleWalkE !! (2, 4) = Some (mkMoviePair movie2 movie4, [1])
  ∧ actorCurvesByMoviePair exampleWalkE !! (3, 4) = None
  ∧ initActorCurves actorF emptyProvider = Some (tt, exampleWalkF)
  ∧ getDirector movie5 = None ∧ getDirector movie6 = None
  ∧ sameDirector movie5 movie6 = true
  ∧ store exampleWalkF !! 0
    = Some (newActorCurve 105
              (stepCurve true (moviePoint exampleWalkF movie5)
                              (moviePoint exampleWalkF movie6)))
  ∧ PrimFloat.eqb
      (Point3d.y (getP1 (stepCurve true (moviePoint exampleWalkF movie5)
                                        (moviePoint exampleWalkF movie6))))
      (Point3d.y (getP1 (stepCurve false (moviePoint exampleWalkF movie5)
                                         (moviePoint exampleWalkF movie6)))) = false.
Proof. split_and!; vm_compute; reflexivity. Qed.


(** ** Expired director references *)



(** ** Offsets of overlapping curves *)

Lemma exampleBuilt_run :
  initActors (getActors exampleModel) emptyProvider = Some (tt, exampleBuilt).
Proof. vm_compute. reflexivity. Qed.

Lemma initActors_wf (actors : list Person) (st st' : DefaultLayoutProvider) :
  Forall moviesResolve actors → wf st →
  initActors actors st = Some (tt, st') → wf st'.
Proof.
  intros Hres Hwf Hrun.
  destruct (initActors_run actors Hres st) as (st1 & Hrun1 & _ & Hwf1).
  rewrite Hrun in Hrun1. injection Hrun1 as <-. auto.
Qed.

Lemma exampleModel_resolves : Forall moviesResolve (getActors exampleModel).
Proof. unfold moviesResolve. cbn. repeat constructor; eauto. Qed.

Lemma exampleBuilt_wf : wf exampleBuilt.
Proof.
  eapply initActors_wf;
    [exact exampleModel_resolves|exact wf_emptyProvider|exact exampleBuilt_run].
Qed.

Lemma Z_of_nat_even (n : nat) : (Z.of_nat n mod 2 =? 0)%Z = Nat.even n.
Proof.
  destruct (Nat.even n) eqn:E.
  - apply Nat.even_spec in E as [k ->]. apply Z.eqb_eq.
    rewrite Nat2Z.inj_mul. Z.to_euclidean_division_equations. lia.
  - apply Z.eqb_neq. rewrite <- Nat.negb_odd in E. apply negb_false_iff in E.
    apply Nat.odd_spec in E as [k ->].
    rewrite Nat2Z.inj_add, Nat2Z.inj_mul. Z.to_euclidean_division_equations. lia.
Qed.

Lemma offsetAmount_index (i : nat) :
  (Z.of_nat i + 1 < UINT_MAX1)%Z →
  offsetAmount (Z.of_nat i mod UINT_MAX1) = offsetOfIndex i.
Proof.
  intros Hi. rewrite Z.mod_small by lia.
  unfold offsetAmount, offsetOfIndex. destruct i as [|i]; [done|].
  rewrite (Z.mod_small (_ + 1)) by lia.
  destruct (Z.eqb_spec (Z.of_nat (S i)) 0) as [|_]; [lia|].
  by rewrite Z_of_nat_even.
Qed.

(** C1: on a well-formed provider, for a group of the movie-pair map with at
    least two curves (and fewer than 2^32, the range of the [unsigned int]
    index), the resolver ends, and the curve at insertion index [i] is given
    the two halves made with the offset vector [amount * direction], where
    [amount] is 0.0 at index 0 and [((i+1) div 2) * 0.05], times -1.0 for an
    even and 1.0 for an odd index, otherwise; [direction] is
    [(-v.y, v.x, v.z)] normalized, for [v = p2 - p1], the points that
    [getMoviePoint] gives at [z = 0] for the two movies of the pair. *)
Theorem overlap_offset_by_index (st : DefaultLayoutProvider) (key : nat * nat)
    (mp : MoviePair) (refs : list CurveRef) (i : nat) (r : CurveRef) (ac : ActorCurve) :
  wf st →
  actorCurvesByMoviePair st !! key = Some (mp, refs) →
  2 ≤ length refs →
  (Z.of_nat (length refs) < UINT_MAX1)%Z →
  refs !! i = Some r →
  store st !! r = Some ac →
  ∃ st' p1 p2,
    divergeOverlappingCurves st = Some (tt, st')
    ∧ getMoviePoint (Some (getFirstMovie mp)) 0%float st = Some (p1, st)
    ∧ getMoviePoint (Some (getSecondMovie mp)) 0%float st = Some (p2, st)
    ∧ let v := point_sub p2 p1 in
      let direction :=
        Vector3d.normalize
          (Vector3d.mk (- Vector3d.y v)%float (Vector3d.x v) (Vector3d.z v)) in
      let amount :=
        match i with
        | 0 => 0%float
        | _ => (of_uint ((Z.of_nat i + 1) / 2) * 0.05
                * (if Nat.even i then -1 else 1))%float
        end in
      let halves := divergedCurves (Vector3d.scale amount direction) (getFirstCurve ac) in
      store st' !! r = Some (mkActorCurve (getActor ac) halves.1 (Some halves.2)).
Proof.
  intros Hwf Hg Hlen Hmax Hi Hac.
  destruct (divergeOverlappingCurves_run st Hwf) as (st' & Hrun & _ & _ & Hat).
  destruct (wf_assigned _ Hwf _ _ Hg) as [Hf Hs]. cbn in Hf, Hs.
  exists st', (moviePoint st (getFirstMovie mp)), (moviePoint st (getSecondMovie mp)).
  split_and!; [done|by apply getMoviePoint_moviePoint..|].
  cbn zeta. rewrite (Hat _ _ _ _ _ Hg Hlen Hi Hac).
  unfold divergeCurve, setCurves. rewrite offsetAmount_index; [done|].
  apply lookup_lt_Some in Hi. cbn in Hi. lia.
Qed.

Lemma overlap_offset_by_index_witness :
  ∃ ac, store exampleBuilt !! 2 = Some ac ∧
  ∃ st' p1 p2,
    divergeOverlappingCurves exampleBuilt = Some (tt, st')
    ∧ getMoviePoint (Some movie1) 0%float exampleBuilt = Some (p1, exampleBuilt)
    ∧ getMoviePoint (Some movie2) 0%float exampleBuilt = Some (p2, exampleBuilt)
    ∧ let v := point_sub p2 p1 in
      let direction :=
        Vector3d.normalize
          (Vector3d.mk (- Vector3d.y v)%float (Vector3d.x v) (Vector3d.z v)) in
      let amount := (of_uint ((Z.of_nat 1 + 1) / 2) * 0.05 * 1)%float in
      let halves := divergedCurves (Vector3d.scale amount direction) (getFirstCurve ac) in
      store st' !! 2 = Some (mkActorCurve (getActor ac) halves.1 (Some halves.2)).
Proof.
  destruct (store exampleBuilt !! 2) as [ac|] eqn:E; [|by vm_compute in E].
  exists ac. split; [done|].
  apply (overlap_offset_by_index exampleBuilt (1, 2) (mkMoviePair movie1 movie2)
           [0; 2; 3] 1 2 ac exampleBuilt_wf);
    [by vm_compute|cbn; lia|by vm_compute|reflexivity|exact E].
Defined.

Lemma divergedCurves_anchors (offsetVector : Vector3d.t) (c : BezierCurve) :
  getP0 (divergedCurves offsetVector c).1 = getP0 c
  ∧ getP3 (divergedCurves offsetVector c).2 = getP3 c.
Proof. done. Qed.

(** C2: on a well-formed provider the resolver ends. Every actor curve of a
    group with at least two curves then holds two curves. With [b1] and [b2]
    the halves of its curve subdivided at 0.5, and with the offset vector of
    the curve, which is the offset amount of its insertion index in the group
    times the offset direction of the pair of the group: the first is [b1]
    with its control points P2 and P3 (trailing handle and junction point)
    moved by that vector, the second is [b2] with its control points P0 and P1
    (junction point and leading handle) moved by it, and no other point is
    moved; the first point of the first and the last point of the second are
    the anchors of the curve as it was. Every actor curve of a group with one
    curve is as it was, a single curve. *)
Theorem overlap_rewrites_midpoints (st : DefaultLayoutProvider) :
  wf st →
  ∃ st',
    divergeOverlappingCurves st = Some (tt, st')
    ∧ (∀ key mp refs i r ac,
         actorCurvesByMoviePair st !! key = Some (mp, refs) →
         2 ≤ length refs → refs !! i = Some r → store st !! r = Some ac →
         ∃ offsetVector b1 b2,
           offsetVector
           = Vector3d.scale (offsetAmount (Z.of_nat i mod UINT_MAX1)) (pairDirection st mp)
           ∧ subdivideAt (getFirstCurve ac) 0.5%float = (b1, b2)
           ∧ store st' !! r
             = Some (mkActorCurve (getActor ac)
                       (mkBezierCurve (getP0 b1) (getP1 b1)
                          (point_add (getP2 b1) offsetVector)
                          (point_add (getP3 b1) offsetVector))
                       (Some (mkBezierCurve
                                (point_add (getP0 b2) offsetVector)
                                (point_add (getP1 b2) offsetVector)
                                (getP2 b2) (getP3 b2))))
           ∧ getP0 b1 = getP0 (getFirstCurve ac)
           ∧ getP3 b2 = getP3 (getFirstCurve ac))
    ∧ (∀ key mp refs r,
         actorCurvesByMoviePair st !! key = Some (mp, refs) →
         length refs ≤ 1 → r ∈ refs →
         store st' !! r = store st !! r).
Proof.
  intros Hwf.
  destruct (divergeOverlappingCurves_run st Hwf) as (st' & Hrun & _ & Hout & Hat).
  exists st'. split_and!; [done| |].
  - intros key mp refs i r ac Hg Hlen Hi Hac.
    rewrite (Hat _ _ _ _ _ Hg Hlen Hi Hac). cbn.
    eexists _, _, _. split; [reflexivity|]. split; [reflexivity|]. by split_and!.
  - intros key mp refs r Hg Hlen Hr. apply Hout.
    intros key' g' Hg' Hr'.
    rewrite (wf_disjoint _ Hwf _ _ _ _ _ Hg' Hg Hr' Hr) in Hg'.
    by simplify_eq.
Qed.

Lemma overlap_rewrites_midpoints_witness :
  ∃ st',
    divergeOverlappingCurves exampleBuilt = Some (tt, st')
    ∧ (∀ key mp refs i r ac,
         actorCurvesByMoviePair exampleBuilt !! key = Some (mp, refs) →
         2 ≤ length refs → refs !! i = Some r → store exampleBuilt !! r = Some ac →
         ∃ offsetVector b1 b2,
           offsetVector
           = Vector3d.scale (offsetAmount (Z.of_nat i mod UINT_MAX1))
                            (pairDirection exampleBuilt mp)
           ∧ subdivideAt (getFirstCurve ac) 0.5%float = (b1, b2)
           ∧ store st' !! r
             = Some (mkActorCurve (getActor ac)
                       (mkBezierCurve (getP0 b1) (getP1 b1)
                          (point_add (getP2 b1) offsetVector)
                          (point_add (getP3 b1) offsetVector))
                       (Some (mkBezierCurve
                                (point_add (getP0 b2) offsetVector)
                                (point_add (getP1 b2) offsetVector)
                                (getP2 b2) (getP3 b2))))
           ∧ getP0 b1 = getP0 (getFirstCurve ac)
           ∧ getP3 b2 = getP3 (getFirstCurve ac))
    ∧ (∀ key mp refs r,
         actorCurvesByMoviePair exampleBuilt !! key = Some (mp, refs) →
         length refs ≤ 1 → r ∈ refs →
         store st' !! r = store exampleBuilt !! r).
Proof. exact (overlap_rewrites_midpoints exampleBuilt exampleBuilt_wf). Defined.

(** C9, as stated, fails on the signs: in the group of three curves of
    [exampleBuilt], the curve at index 1 is moved by +0.05 and the curve at
    index 2 by -0.05 along the direction, where the claim has - and +. *)
Lemma group_of_three_signs :
  actorCurvesByMoviePair exampleBuilt !! (1, 2)
  = Some (mkMoviePair movie1 movie2, [0; 2; 3])
  ∧ divergeOverlappingCurves exampleBuilt = Some (tt, exampleLaidOut)
  ∧ store exampleLaidOut !! 2
    = shiftedBy 0.05 (pairDirection exampleBuilt (mkMoviePair movie1 movie2))
        <$> store exampleBuilt !! 2
  ∧ PrimFloat.ltb 0 (offsetAmount 1) = true
  ∧ store exampleLaidOut !! 3
    = shiftedBy (-0.05) (pairDirection exampleBuilt (mkMoviePair movie1 movie2))
        <$> store exampleBuilt !! 3
  ∧ PrimFloat.ltb (offsetAmount 2) 0 = true.
Proof.
  split; [|split; [|split; [|split; [|split]]]]; vm_compute; reflexivity.
Qed.

(** C9, amended: in a group of exactly three curves the resolver moves the
    middle of the curves at indices 0, 1 and 2 by 0, +0.05 and -0.05 along the
    direction of the pair. Each curve then holds two halves; the first point of
    the first half and the last point of the second are its anchors as they
    were, the points in between (junction and the handles next to it) are the
    ones moved. *)
Theorem overlap_group_of_three (st : DefaultLayoutProvider) (key : nat * nat)
    (mp : MoviePair) (r0 r1 r2 : CurveRef) (ac0 ac1 ac2 : ActorCurve) :
  wf st →
  actorCurvesByMoviePair st !! key = Some (mp, [r0; r1; r2]) →
  store st !! r0 = Some ac0 →
  store st !! r1 = Some ac1 →
  store st !! r2 = Some ac2 →
  ∃ st',
    divergeOverlappingCurves st = Some (tt, st')
    ∧ store st' !! r0 = Some (shiftedBy 0 (pairDirection st mp) ac0)
    ∧ store st' !! r1 = Some (shiftedBy 0.05 (pairDirection st mp) ac1)
    ∧ store st' !! r2 = Some (shiftedBy (-0.05) (pairDirection st mp) ac2)
    ∧ (∀ amount ac,
         let ac' := shiftedBy amount (pairDirection st mp) ac in
         let b := subdivideAt (getFirstCurve ac) 0.5%float in
         let offsetVector := Vector3d.scale amount (pairDirection st mp) in
         getP0 (getFirstCurve ac') = getP0 (getFirstCurve ac)
         ∧ getP3 <$> getSecondCurve ac' = Some (getP3 (getFirstCurve ac))
         ∧ getP2 (getFirstCurve ac') = point_add (getP2 b.1) offsetVector
         ∧ getP3 (getFirstCurve ac') = point_add (getP3 b.1) offsetVector
         ∧ getP0 <$> getSecondCurve ac' = Some (point_add (getP0 b.2) offsetVector)
         ∧ getP1 <$> getSecondCurve ac' = Some (point_add (getP1 b.2) offsetVector)).
Proof.
  intros Hwf Hg H0 H1 H2.
  destruct (divergeOverlappingCurves_run st Hwf) as (st' & Hrun & _ & _ & Hat).
  exists st'. split_and!; [done|..].
  - by rewrite (Hat _ _ 0 _ _ Hg) by (done || cbn; lia).
  - by rewrite (Hat _ _ 1 _ _ Hg) by (done || cbn; lia).
  - by rewrite (Hat _ _ 2 _ _ Hg) by (done || cbn; lia).
  - done.
Qed.

Lemma overlap_group_of_three_witness :
  ∃ ac0 ac1 ac2,
    store exampleBuilt !! 0 = Some ac0
    ∧ store exampleBuilt !! 2 = Some ac1
    ∧ store exampleBuilt !! 3 = Some ac2
    ∧ ∃ st',
        divergeOverlappingCurves exampleBuilt = Some (tt, st')
        ∧ store st' !! 0
          = Some (shiftedBy 0 (pairDirection exampleBuilt (mkMoviePair movie1 movie2)) ac0)
        ∧ store st' !! 2
          = Some (shiftedBy 0.05 (pairDirection exampleBuilt (mkMoviePair movie1 movie2)) ac1)
        ∧ store st' !! 3
          = Some (shiftedBy (-0.05) (pairDirection exampleBuilt (mkMoviePair movie1 movie2)) ac2).
Proof.
  destruct (store exampleBuilt !! 0) as [ac0|] eqn:E0; [|by vm_compute in E0].
  destruct (store exampleBuilt !! 2) as [ac1|] eqn:E1; [|by vm_compute in E1].
  destruct (store exampleBuilt !! 3) as [ac2|] eqn:E2; [|by vm_compute in E2].
  exists ac0, ac1, ac2.
  split; [reflexivity|]. split; [reflexivity|]. split; [reflexivity|].
  destruct (overlap_group_of_three exampleBuilt (1, 2) (mkMoviePair movie1 movie2)
              0 2 3 ac0 ac1 ac2 exampleBuilt_wf) as (st' & Hrun & H0 & H1 & H2 & _);
    [vm_compute; reflexivity|exact E0|exact E1|exact E2|].
  exists st'. exact (conj Hrun (conj H0 (conj H1 H2))).
Defined.

(** * Further properties of the provider *)

(** ** The extent of the date axis *)

(** X1: the position of every valid date of the years 1985 to 2009 lies
    between those of 1 January 1985 and of 31 December 2009, hence strictly
    between -2.5 and 2.71: the axis is centred on 0.0, five units long for the
    24 years between the two calibration years, and the last year of the window
    reaches one year's length beyond 2.5. *)
Theorem date_axis_extent (d : date) :
  valid_date d → inWindow d →
  PrimFloat.leb (getDateYPosition (mkDate EARLIEST_YEAR 1)) (getDateYPosition d) = true
  ∧ PrimFloat.leb (getDateYPosition d) (getDateYPosition (mkDate LATEST_YEAR 365)) = true
  ∧ PrimFloat.ltb (-2.5) (getDateYPosition d) = true
  ∧ PrimFloat.ltb (getDateYPosition d) 2.71 = true.
Proof.
  intros Hv Hw.
  assert (valid_date (mkDate EARLIEST_YEAR 1) ∧ inWindow (mkDate EARLIEST_YEAR 1)
          ∧ valid_date (mkDate LATEST_YEAR 365) ∧ inWindow (mkDate LATEST_YEAR 365))
    as (V1 & W1 & V2 & W2).
  { unfold valid_date, inWindow, EARLIEST_YEAR, LATEST_YEAR. cbn.
    repeat split; try lia; by vm_compute. }
  assert (year d = LATEST_YEAR → day_of_year d ≤ 365)%Z as Hlast.
  { intros Hy. unfold valid_date in Hv. rewrite Hy in Hv.
    change (days_in_year LATEST_YEAR) with 365%Z in Hv. lia. }
  assert (PrimFloat.leb (getDateYPosition (mkDate EARLIEST_YEAR 1)) (getDateYPosition d) = true)
    as Hlo.
  { destruct (StronglySorted_related _ _ (mkDate EARLIEST_YEAR 1) d windowDates_sorted
                  (elem_of_windowDates _ V1 W1) (elem_of_windowDates _ Hv Hw))
      as [<-|[(_ & H & _)|(H & _)]].
    - by vm_compute.
    - exact H.
    - exfalso. unfold date_lt, valid_date, inWindow in *. cbn in H. lia. }
  assert (PrimFloat.leb (getDateYPosition d) (getDateYPosition (mkDate LATEST_YEAR 365)) = true)
    as Hhi.
  { destruct (StronglySorted_related _ _ d (mkDate LATEST_YEAR 365) windowDates_sorted
                  (elem_of_windowDates _ Hv Hw) (elem_of_windowDates _ V2 W2))
      as [->|[(_ & H & _)|(H & _)]].
    - by vm_compute.
    - exact H.
    - exfalso. unfold date_lt, valid_date, inWindow in *. cbn in H. lia. }
  split_and!; [done|done| |].
  - eapply float_ltb_leb_trans; [|exact Hlo]. by vm_compute.
  - eapply float_leb_ltb_trans; [exact Hhi|]. by vm_compute.
Qed.

Lemma date_axis_extent_witness :
  PrimFloat.leb (getDateYPosition (mkDate EARLIEST_YEAR 1))
                (getDateYPosition (mkDate 1996 366)) = true
  ∧ PrimFloat.leb (getDateYPosition (mkDate 1996 366))
                  (getDateYPosition (mkDate LATEST_YEAR 365)) = true
  ∧ PrimFloat.ltb (-2.5) (getDateYPosition (mkDate 1996 366)) = true
  ∧ PrimFloat.ltb (getDateYPosition (mkDate 1996 366)) 2.71 = true.
Proof.
  apply (date_axis_extent (mkDate 1996 366));
    unfold valid_date, inWindow, EARLIEST_YEAR, LATEST_YEAR; cbn;
    repeat split; try lia; by vm_compute.
Defined.

(** ** The director axis of a layout *)

(** X2: in the provider a model is laid out into, with [n] directors in the
    table, the positions are [DISTANCE * k] for the slots [k] below [n]: every
    position is one of these, every slot is taken, and (within [EXACT_SLOTS]
    directors) no two directors share a position. *)
Theorem layout_director_slots (model : Model) (st : DefaultLayoutProvider) :
  layout model = Some st →
  (∀ d x, directorXPositions st !! d = Some x →
     ∃ k, k < size (directorXPositions st) ∧ x = (DISTANCE * of_uint (Z.of_nat k))%float)
  ∧ (∀ k, k < size (directorXPositions st) →
       ∃ d, directorXPositions st !! d = Some (DISTANCE * of_uint (Z.of_nat k))%float)
  ∧ ((Z.of_nat (size (directorXPositions st)) < EXACT_SLOTS)%Z →
     ∀ d d' x, directorXPositions st !! d = Some x →
               directorXPositions st !! d' = Some x → d = d').
Proof.
  intros Hlay. pose proof (layout_slotted _ _ Hlay) as Hslotted.
  destruct Hslotted as (seen & Hsize & Hdom & Hslot) eqn:E. clear E.
  split_and!.
  - intros d x Hx.
    assert (d ∈ seen) as [k Hk]%list_elem_of_lookup by (apply Hdom; by rewrite Hx).
    exists k. split.
    + rewrite Hsize. by eapply lookup_lt_Some.
    + rewrite (Hslot _ _ Hk) in Hx. by injection Hx.
  - intros k Hk. rewrite Hsize in Hk.
    destruct (lookup_lt_is_Some_2 seen k Hk) as [d Hd].
    exists d. by apply Hslot.
  - intros Hlt d d' x Hx Hx'.
    destruct (decide (d = d')) as [|Hne]; [done|]. exfalso.
    by eapply (slotted_distinct st d d' x x).
Qed.

Lemma layout_director_slots_witness :
  (∀ d x, directorXPositions exampleLaidOut !! d = Some x →
     ∃ k, k < size (directorXPositions exampleLaidOut)
          ∧ x = (DISTANCE * of_uint (Z.of_nat k))%float)
  ∧ (∀ k, k < size (directorXPositions exampleLaidOut) →
       ∃ d, directorXPositions exampleLaidOut !! d
            = Some (DISTANCE * of_uint (Z.of_nat k))%float)
  ∧ ((Z.of_nat (size (directorXPositions exampleLaidOut)) < EXACT_SLOTS)%Z →
     ∀ d d' x, directorXPositions exampleLaidOut !! d = Some x →
               directorXPositions exampleLaidOut !! d' = Some x → d = d').
Proof.
  apply (layout_director_slots exampleModel exampleLaidOut). vm_compute. reflexivity.
Defined.

(** ** Expired movie references *)

Lemma resolved_or_expired {A : Type} (l : list (option A)) :
  Forall is_Some l ∨ None ∈ l.
Proof.
  induction l as [|[a|] l [IH|IH]].
  - by left.
  - left. constructor; eauto.
  - right. by right.
  - right. by left.
  - right. by left.
Qed.

Lemma expired_not_resolved {A : Type} (l : list (option A)) :
  None ∈ l → Forall is_Some l → False.
Proof.
  intros Hin Hall. rewrite Forall_forall in Hall.
  by destruct (Hall _ Hin).
Qed.

Lemma initActorCurves_expired (actor : Person) (st : DefaultLayoutProvider) :
  None ∈ getMoviesStarredIn actor → initActorCurves actor st = None.
Proof.
  intros Hin. unfold initActorCurves.
  destruct (getMoviesStarredIn actor) as [|x [|y l]] eqn:E.
  - by apply elem_of_nil in Hin.
  - apply list_elem_of_singleton in Hin as <-. done.
  - cbn [length Nat.eqb]. unfold sortMovies.
    destruct (mapM id (x :: y :: l)) as [ms|] eqn:Em; [|done].
    exfalso. apply (expired_not_resolved _ Hin).
    assert (is_Some (mapM id (x :: y :: l))) as Hs by (by rewrite Em).
    by apply mapM_is_Some in Hs.
Qed.

(** X3: [initActorCurves] stops on a null pointer if and only if one of the
    actor's movie references has expired: with every reference resolved (and
    with no movie at all) it runs to its end; an expired reference is locked
    and dereferenced, by the sort or by [getMoviePoint], wherever it stands in
    the list. *)
Theorem initActorCurves_stops_iff (actor : Person) (st : DefaultLayoutProvider) :
  initActorCurves actor st = None ↔ None ∈ getMoviesStarredIn actor.
Proof.
  split; [|apply initActorCurves_expired].
  intros Hstop.
  destruct (resolved_or_expired (getMoviesStarredIn actor)) as [Hres|]; [|done].
  apply Forall_is_Some_fmap in Hres as [ms Hms].
  destruct (initActorCurves_run actor ms st Hms) as (st' & Hrun & _).
  by rewrite Hrun in Hstop.
Qed.

Lemma initActors_resolves (actors : list Person) :
  ∀ st st' : DefaultLayoutProvider,
  initActors actors st = Some (tt, st') → Forall moviesResolve actors.
Proof.
  induction actors as [|actor actors IH]; intros st st'; cbn; [done|].
  unfold bind.
  destruct (initActorCurves actor st) as [[[] st1]|] eqn:E; [|done].
  intros Hrun%IH. constructor; [|done].
  destruct (resolved_or_expired (getMoviesStarredIn actor)) as [|Hin]; [done|].
  apply (initActorCurves_expired actor st) in Hin. by rewrite Hin in E.
Qed.

(** X4: the layout of a model is computed to its end if and only if every
    movie reference of every actor of the model resolves; expired director
    references do not matter. *)
Theorem layout_ends_iff (model : Model) :
  is_Some (layout model) ↔ Forall moviesResolve (getActors model).
Proof.
  split.
  - intros [st Hst]. unfold layout, exec, init, bind in Hst.
    destruct (initActors _ emptyProvider) as [[[] st1]|] eqn:E; [|done].
    by eapply initActors_resolves.
  - intros Hres. destruct (init_run model Hres) as (_ & st' & _ & _ & _ & ->). eauto.
Qed.

(** ** What the building of the index keeps *)

Section building.

Variable P : DefaultLayoutProvider → Prop.

Hypothesis P_table : ∀ st st',
  directorXPositions st ⊆ directorXPositions st' →
  actorCurvesByActor st' = actorCurvesByActor st →
  actorCurvesByMoviePair st' = actorCurvesByMoviePair st →
  store st' = store st →
  P st → P st'.

Hypothesis P_registered : ∀ actor c mp st, P st → P (registered actor c mp st).

Lemma getMoviePoint_builds (movie : option Movie) (z : double) (p : Point3d.t)
    (st st' : DefaultLayoutProvider) :
  getMoviePoint movie z st = Some (p, st') → P st → P st'.
Proof.
  destruct movie as [m|]; [|done].
  destruct (getMoviePoint_run m z st) as (x & st1 & -> & _ & _ & Hsub & Ha & Hp & Hs).
  intros [= _ <-]. by apply P_table.
Qed.

Lemma walkMovies_builds (actor : PersonId) (z : double) (last : Movie)
    (rest : list (option Movie)) :
  ∀ (lastAnchor : Point3d.t) (st st' : DefaultLayoutProvider),
  walkMovies actor z last lastAnchor rest st = Some (tt, st') → P st → P st'.
Proof.
  induction rest as [|[m|] rest IH]; intros lastAnchor st st'.
  - by intros [= <-].
  - rewrite walkMovies_cons.
    destruct (getMoviePoint (Some m) z st) as [[anchor st1]|] eqn:E; [|done].
    intros Hrun HP. eapply IH; [exact Hrun|]. apply P_registered.
    eapply getMoviePoint_builds; [exact E|exact HP].
  - done.
Qed.

Lemma initActorCurves_builds (actor : Person) (st st' : DefaultLayoutProvider) :
  initActorCurves actor st = Some (tt, st') → P st → P st'.
Proof.
  unfold initActorCurves.
  destruct (length (getMoviesStarredIn actor) =? 0); [by intros [= <-]|].
  destruct (sortMovies _) as [[|first rest]|]; [done| |done].
  unfold bind.
  destruct (getMoviePoint first 0 st) as [[anchor st1]|] eqn:E; [|done].
  destruct first as [m|]; [|done].
  intros Hrun HP. eapply walkMovies_builds; [exact Hrun|].
  eapply getMoviePoint_builds; [exact E|exact HP].
Qed.

Lemma initActors_builds (actors : list Person) :
  ∀ st st' : DefaultLayoutProvider,
  initActors actors st = Some (tt, st') → P st → P st'.
Proof.
  induction actors as [|actor actors IH]; intros st st'; cbn.
  - by intros [= <-].
  - unfold bind.
    destruct (initActorCurves actor st) as [[[] st1]|] eqn:E; [|done].
    intros Hrun HP. eapply IH; [exact Hrun|].
    eapply initActorCurves_builds; [exact E|exact HP].
Qed.

End building.

Lemma getActorCurves_registered (a actor : PersonId) (c : BezierCurve) (mp : MoviePair)
    (st : DefaultLayoutProvider) :
  getActorCurves a (registered actor c mp st)
  = if decide (a = actor) then getActorCurves a st ++ [length (store st)]
    else getActorCurves a st.
Proof.
  unfold getActorCurves at 1. cbn. destruct (decide (a = actor)) as [->|Hne].
  - by rewrite lookup_insert_eq.
  - by rewrite lookup_insert_ne.
Qed.

Lemma extends_refl (st : DefaultLayoutProvider) : extends st st.
Proof.
  split_and!; [done|done| |].
  - intros a. done.
  - intros key mp refs Hg. exists refs. split; [exact Hg|reflexivity].
Qed.

Lemma extends_trans (st1 st2 st3 : DefaultLayoutProvider) :
  extends st1 st2 → extends st2 st3 → extends st1 st3.
Proof.
  intros (Hd & Hs & Ha & Hp) (Hd' & Hs' & Ha' & Hp'). split_and!.
  - by etrans.
  - by etrans.
  - intros a. etrans; [apply Ha|apply Ha'].
  - intros key mp refs Hg.
    destruct (Hp _ _ _ Hg) as (refs1 & Hg1 & Hpre1).
    destruct (Hp' _ _ _ Hg1) as (refs2 & Hg2 & Hpre2).
    exists refs2. split; [done|by etrans].
Qed.

Lemma extends_table (st st' : DefaultLayoutProvider) :
  directorXPositions st ⊆ directorXPositions st' →
  actorCurvesByActor st' = actorCurvesByActor st →
  actorCurvesByMoviePair st' = actorCurvesByMoviePair st →
  store st' = store st →
  extends st st'.
Proof.
  intros Hd Ha Hp Hs. unfold extends, getActorCurves. rewrite Ha, Hp, Hs.
  split_and!; [done|done| |].
  - intros a. done.
  - intros key mp refs Hg. exists refs. split; [exact Hg|reflexivity].
Qed.

Lemma extends_registered (actor : PersonId) (c : BezierCurve) (mp : MoviePair)
    (st : DefaultLayoutProvider) :
  extends st (registered actor c mp st).
Proof.
  split_and!.
  - done.
  - cbn. by apply prefix_app_r.
  - intros a. rewrite getActorCurves_registered.
    destruct (decide (a = actor)); [by apply prefix_app_r|done].
  - intros key mp' refs Hg. cbn.
    destruct (decide (pairKey mp = key)) as [<-|Hne].
    + rewrite lookup_insert_eq, Hg. cbn. eexists. split; [done|by apply prefix_app_r].
    + rewrite lookup_insert_ne by done. by exists refs.
Qed.

Lemma indexed_emptyProvider : indexed emptyProvider.
Proof.
  split; cbn.
  - intros a r. unfold getActorCurves. cbn. rewrite lookup_empty. cbn.
    split; [by intros ?%elem_of_nil|done].
  - intros a. unfold getActorCurves. cbn. rewrite lookup_empty. apply NoDup_nil_2.
  - intros r Hr. lia.
Qed.

Lemma indexed_table (st st' : DefaultLayoutProvider) :
  directorXPositions st ⊆ directorXPositions st' →
  actorCurvesByActor st' = actorCurvesByActor st →
  actorCurvesByMoviePair st' = actorCurvesByMoviePair st →
  store st' = store st →
  indexed st → indexed st'.
Proof.
  intros _ Ha Hp Hs [H1 H2 H3].
  split; unfold getActorCurves in *; rewrite ?Ha, ?Hp, ?Hs; done.
Qed.

Lemma lookup_snoc_actor (l : list ActorCurve) (ac : ActorCurve) (r : nat) (a : PersonId) :
  getActor <$> (l ++ [ac]) !! r = Some a
  ↔ getActor <$> l !! r = Some a ∨ (r = length l ∧ getActor ac = a).
Proof.
  rewrite !fmap_Some. setoid_rewrite lookup_snoc_Some. split.
  - intros (x & [[_ Hx]|[-> ->]] & ->); eauto.
  - intros [(x & Hx & ->)|[-> <-]].
    + exists x. split; [|done]. left. split; [by eapply lookup_lt_Some|done].
    + exists ac. eauto.
Qed.

Lemma indexed_registered (actor : PersonId) (c : BezierCurve) (mp : MoviePair)
    (st : DefaultLayoutProvider) :
  indexed st → indexed (registered actor c mp st).
Proof.
  intros [Hact Hnd Hpair].
  assert (Hold : ∀ a, length (store st) ∉ getActorCurves a st).
  { intros a [x [Hx _]]%Hact%fmap_Some. apply lookup_lt_Some in Hx. lia. }
  split.
  - intros a r. rewrite getActorCurves_registered.
    cbn [store registered]. rewrite lookup_snoc_actor. cbn [getActor newActorCurve].
    destruct (decide (a = actor)) as [->|Hne].
    + rewrite elem_of_app, list_elem_of_singleton, Hact. intuition congruence.
    + rewrite Hact. intuition congruence.
  - intros a. rewrite getActorCurves_registered.
    destruct (decide (a = actor)) as [->|Hne]; [|done].
    apply NoDup_app. split_and!; [done| |apply NoDup_singleton].
    intros r Hr ->%list_elem_of_singleton. by eapply Hold.
  - intros r. cbn [store registered actorCurvesByMoviePair]. rewrite length_app. cbn.
    intros Hr. destruct (decide (r = length (store st))) as [->|Hne].
    + eexists _, _. rewrite lookup_insert_eq. split; [done|]. cbn.
      apply elem_of_app. right. by apply list_elem_of_singleton.
    + destruct (Hpair r) as (key & g & Hg & Hin); [lia|].
      destruct (decide (pairKey mp = key)) as [<-|Hk].
      * eexists _, _. rewrite lookup_insert_eq. split; [done|]. cbn.
        rewrite Hg. cbn. apply elem_of_app. by left.
      * exists key, g. by rewrite lookup_insert_ne.
Qed.

Lemma unsplit_table (st st' : DefaultLayoutProvider) :
  directorXPositions st ⊆ directorXPositions st' →
  actorCurvesByActor st' = actorCurvesByActor st →
  actorCurvesByMoviePair st' = actorCurvesByMoviePair st →
  store st' = store st →
  unsplit st → unsplit st'.
Proof. intros _ _ _ Hs H. unfold unsplit. by rewrite Hs. Qed.

Lemma unsplit_registered (actor : PersonId) (c : BezierCurve) (mp : MoviePair)
    (st : DefaultLayoutProvider) :
  unsplit st → unsplit (registered actor c mp st).
Proof.
  intros H r ac. cbn. intros [[_ Hr]|[_ <-]]%lookup_snoc_Some; [by eapply H|done].
Qed.

Lemma extends_keeps_table (st0 st st' : DefaultLayoutProvider) :
  directorXPositions st ⊆ directorXPositions st' →
  actorCurvesByActor st' = actorCurvesByActor st →
  actorCurvesByMoviePair st' = actorCurvesByMoviePair st →
  store st' = store st →
  extends st0 st → extends st0 st'.
Proof.
  intros Hd Ha Hp Hs Hext. eapply extends_trans; [exact Hext|].
  by apply extends_table.
Qed.

Lemma extends_keeps_registered (st0 : DefaultLayoutProvider) (actor : PersonId)
    (c : BezierCurve) (mp : MoviePair) (st : DefaultLayoutProvider) :
  extends st0 st → extends st0 (registered actor c mp st).
Proof.
  intros Hext. eapply extends_trans; [exact Hext|]. apply extends_registered.
Qed.

Lemma walkMovies_extends (actor : PersonId) (z : double) (last : Movie)
    (rest : list (option Movie)) (lastAnchor : Point3d.t)
    (st st' : DefaultLayoutProvider) :
  walkMovies actor z last lastAnchor rest st = Some (tt, st') → extends st st'.
Proof.
  intros Hrun.
  eapply (walkMovies_builds (extends st));
    [apply extends_keeps_table|apply extends_keeps_registered|exact Hrun|apply extends_refl].
Qed.

(** X5: what the walk over the actors has built it never takes back. When
    [initActors] ends, the provider it leaves extends the one it started from:
    positions assigned stay, the curves of the store stay where they are and
    as they are, every sequence of the two index maps has grown at its end
    only, and every group has kept the pair object stored first. *)
Theorem building_extends (actors : list Person) (st st' : DefaultLayoutProvider) :
  initActors actors st = Some (tt, st') → extends st st'.
Proof.
  intros Hrun.
  eapply (initActors_builds (extends st));
    [apply extends_keeps_table|apply extends_keeps_registered|exact Hrun|apply extends_refl].
Qed.

Lemma building_extends_witness :
  extends exampleWalkE
    (default emptyProvider (exec (initActors (getActors exampleModel)) exampleWalkE)).
Proof.
  apply (building_extends (getActors exampleModel)). vm_compute. reflexivity.
Defined.

(** ** The number of curves *)

Lemma exampleCast_resolves : Forall moviesResolve (getActors exampleCast).
Proof. unfold moviesResolve. cbn. repeat constructor; eauto. Qed.

Lemma curvesOfActor_cons (a : PersonId) (p : Person) (actors : list Person) :
  curvesOfActor a (p :: actors)
  = (if decide (personId p = a) then length (getMoviesStarredIn p) - 1 else 0)
    + curvesOfActor a actors.
Proof.
  unfold curvesOfActor, curvesOf. rewrite filter_cons.
  by destruct (decide (personId p = a)).
Qed.

Lemma initActors_count (actors : list Person) :
  Forall moviesResolve actors →
  ∀ st st' : DefaultLayoutProvider,
  initActors actors st = Some (tt, st') →
  length (store st') = length (store st) + curvesOf actors
  ∧ ∀ a, length (getActorCurves a st')
         = length (getActorCurves a st) + curvesOfActor a actors.
Proof.
  induction 1 as [|actor actors Hres _ IH]; intros st st'.
  - intros [= <-]. cbn. split; [lia|]. intros a. unfold curvesOfActor. cbn. lia.
  - apply Forall_is_Some_fmap in Hres as [ms Hms].
    destruct (initActorCurves_run actor ms st Hms)
      as (st1 & Hrun1 & _ & (new & Hstore & Hlen) & Hact & Hoth & _).
    cbn [initActors]. unfold bind. rewrite Hrun1.
    intros [Hs Ha]%IH. split.
    + rewrite Hs, Hstore, length_app, Hlen. unfold curvesOf. cbn.
      rewrite Hms, length_fmap. lia.
    + intros a. rewrite Ha, curvesOfActor_cons.
      destruct (decide (personId actor = a)) as [<-|Hne].
      * rewrite Hact, length_app, length_seq, Hms, length_fmap. lia.
      * unfold getActorCurves. rewrite Hoth by done. lia.
Qed.

Lemma built_run (model : Model) :
  Forall moviesResolve (getActors model) →
  ∃ st1 st', initActors (getActors model) emptyProvider = Some (tt, st1)
    ∧ wf st1 ∧ indexed st1 ∧ unsplit st1
    ∧ divergeOverlappingCurves st1 = Some (tt, st')
    ∧ layout model = Some st'.
Proof.
  intros Hres. destruct (init_run model Hres) as (st1 & st' & Hrun1 & Hwf & Hrun & Hlay).
  exists st1, st'. split_and!; try done.
  - eapply (initActors_builds indexed);
      [exact indexed_table|exact indexed_registered|exact Hrun1|exact indexed_emptyProvider].
  - eapply (initActors_builds unsplit);
      [exact unsplit_table|exact unsplit_registered|exact Hrun1|].
    by intros r ac.
Qed.

(** X6: when every movie reference resolves, the layout holds as many actor
    curves as the actors have steps between consecutive movies: the sum, over
    the actors of the model, of the number of movies less one (nothing for an
    actor without a movie). *)
Theorem layout_curve_count (model : Model) :
  Forall moviesResolve (getActors model) →
  ∃ st', layout model = Some st'
    ∧ length (store st') = curvesOf (getActors model).
Proof.
  intros Hres.
  destruct (built_run model Hres) as (st1 & st' & Hrun1 & Hwf & _ & _ & Hrun & Hlay).
  destruct (divergeOverlappingCurves_run st1 Hwf) as (st'' & Hrun' & Hsame & _).
  rewrite Hrun in Hrun'. injection Hrun' as <-.
  destruct Hsame as (_ & _ & _ & Hlen).
  destruct (initActors_count _ Hres _ _ Hrun1) as [Hs _].
  exists st'. split; [done|]. by rewrite Hlen, Hs.
Qed.

Lemma layout_curve_count_witness :
  ∃ st', layout exampleCast = Some st'
    ∧ length (store st') = curvesOf (getActors exampleCast).
Proof. exact (layout_curve_count exampleCast exampleCast_resolves). Defined.

(** X7: in the layout, [getActorCurves] gives an actor as many curves as the
    entries of the model with that actor's identity have steps between movies:
    the empty sequence for an actor the model does not list, and for one with
    a single movie. *)
Theorem layout_actor_curve_count (model : Model) :
  Forall moviesResolve (getActors model) →
  ∃ st', layout model = Some st'
    ∧ (∀ a, length (getActorCurves a st') = curvesOfActor a (getActors model))
    ∧ (∀ a, (∀ p, p ∈ getActors model → personId p = a →
                  length (getMoviesStarredIn p) ≤ 1) →
            getActorCurves a st' = []).
Proof.
  intros Hres.
  destruct (built_run model Hres) as (st1 & st' & Hrun1 & Hwf & _ & _ & Hrun & Hlay).
  destruct (divergeOverlappingCurves_run st1 Hwf) as (st'' & Hrun' & Hsame & _).
  rewrite Hrun in Hrun'. injection Hrun' as <-.
  destruct Hsame as (_ & Hact & _ & _).
  destruct (initActors_count _ Hres _ _ Hrun1) as [_ Ha].
  assert (Hcount : ∀ a, length (getActorCurves a st') = curvesOfActor a (getActors model)).
  { intros a. unfold getActorCurves at 1. rewrite Hact. apply (Ha a). }
  exists st'. split_and!; [done|done|].
  intros a Hfew. apply nil_length_inv. rewrite Hcount.
  clear -Hfew. induction (getActors model) as [|p actors IH]; [done|].
  rewrite curvesOfActor_cons, IH.
  - destruct (decide (personId p = a)) as [Hp|]; [|done].
    specialize (Hfew p (list_elem_of_here _ _) Hp). lia.
  - intros q Hq. apply Hfew. by right.
Qed.

Lemma layout_actor_curve_count_witness :
  ∃ st', layout exampleCast = Some st'
    ∧ (∀ a, length (getActorCurves a st') = curvesOfActor a (getActors exampleCast))
    ∧ (∀ a, (∀ p, p ∈ getActors exampleCast → personId p = a →
                  length (getMoviesStarredIn p) ≤ 1) →
            getActorCurves a st' = []).
Proof. exact (layout_actor_curve_count exampleCast exampleCast_resolves). Defined.

(** ** The cells the resolver rewrites *)

(** A cell of the store is rewritten when a group of at least two curves
    holds it, and left alone otherwise. *)
Lemma resolver_cell (st st' : DefaultLayoutProvider) (r : CurveRef) :
  wf st → divergeOverlappingCurves st = Some (tt, st') →
  (store st' !! r = store st !! r
   ∧ ∀ key g, actorCurvesByMoviePair st !! key = Some g → r ∈ g.2 → length g.2 ≤ 1)
  ∨ (∃ key g i ac,
       actorCurvesByMoviePair st !! key = Some g ∧ 2 ≤ length g.2
       ∧ g.2 !! i = Some r ∧ store st !! r = Some ac
       ∧ store st' !! r
         = Some (divergeCurve (pairDirection st g.1) (Z.of_nat i mod UINT_MAX1) ac)).
Proof.
  intros Hwf Hrun.
  destruct (divergeOverlappingCurves_run st Hwf) as (st'' & Hrun' & _ & Hout & Hat).
  rewrite Hrun in Hrun'. injection Hrun' as <-.
  destruct (decide (map_Forall (λ _ g, r ∈ g.2 → length g.2 ≤ 1)
                      (actorCurvesByMoviePair st))) as [Hall|Hex].
  - left. split; [|exact Hall]. apply Hout. exact Hall.
  - right. apply map_not_Forall in Hex; [|apply _].
    destruct Hex as (key & g & Hg & Hn).
    destruct (decide (r ∈ g.2)) as [Hin|]; [|by destruct Hn].
    destruct (decide (length g.2 ≤ 1)) as [|Hlen]; [by destruct Hn|].
    apply list_elem_of_lookup in Hin as [i Hi].
    destruct (lookup_lt_is_Some_2 (store st) r) as [ac Hac].
    { eapply (wf_inStore _ Hwf); [exact Hg|]. by eapply list_elem_of_lookup_2. }
    exists key, g, i, ac. split_and!; [done|lia|done|done|].
    eapply Hat; [exact Hg|lia|exact Hi|exact Hac].
Qed.

(** ** The index of a layout *)

(** X8: when every movie reference resolves, the two index maps of the
    layout are two partitions of the curves of the store. The sequence
    [getActorCurves] gives for an actor lists, without repetition, exactly the
    curves of that actor; and every curve is held by one group of the
    movie-pair map and by no other, once. *)
Theorem layout_index_partition (model : Model) :
  Forall moviesResolve (getActors model) →
  ∃ st', layout model = Some st'
    ∧ (∀ a r, r ∈ getActorCurves a st' ↔ getActor <$> store st' !! r = Some a)
    ∧ (∀ a, NoDup (getActorCurves a st'))
    ∧ (∀ r, r < length (store st') →
         ∃ key g, actorCurvesByMoviePair st' !! key = Some g ∧ r ∈ g.2
           ∧ ∀ key' g', actorCurvesByMoviePair st' !! key' = Some g' → r ∈ g'.2 →
                        key' = key)
    ∧ (∀ key g, actorCurvesByMoviePair st' !! key = Some g →
         NoDup g.2 ∧ ∀ r, r ∈ g.2 → r < length (store st')).
Proof.
  intros Hres.
  destruct (built_run model Hres)
    as (st1 & st' & Hrun1 & Hwf & [Hact Hnd Hpair] & _ & Hrun & Hlay).
  destruct (divergeOverlappingCurves_run st1 Hwf) as (st'' & Hrun' & Hsame & _).
  rewrite Hrun in Hrun'. injection Hrun' as <-.
  destruct Hsame as (_ & Ha & Hp & Hlen).
  assert (Hcell : ∀ r, getActor <$> store st' !! r = getActor <$> store st1 !! r).
  { intros r.
    destruct (resolver_cell st1 st' r Hwf Hrun)
      as [[-> _]|(key & g & i & ac0 & _ & _ & _ & -> & ->)]; done. }
  exists st'. unfold getActorCurves in *. rewrite Ha, Hp, Hlen.
  split_and!; [done| |done| |].
  - intros a r. rewrite Hcell. apply Hact.
  - intros r Hr. destruct (Hpair r Hr) as (key & g & Hg & Hin).
    exists key, g. split_and!; [done|done|].
    intros key' g' Hg' Hin'. by eapply (wf_disjoint _ Hwf).
  - intros key g Hg. split; [by eapply (wf_noDup _ Hwf)|].
    intros r Hr. by eapply (wf_inStore _ Hwf).
Qed.

Lemma layout_index_partition_witness :
  ∃ st', layout exampleCast = Some st'
    ∧ (∀ a r, r ∈ getActorCurves a st' ↔ getActor <$> store st' !! r = Some a)
    ∧ (∀ a, NoDup (getActorCurves a st'))
    ∧ (∀ r, r < length (store st') →
         ∃ key g, actorCurvesByMoviePair st' !! key = Some g ∧ r ∈ g.2
           ∧ ∀ key' g', actorCurvesByMoviePair st' !! key' = Some g' → r ∈ g'.2 →
                        key' = key)
    ∧ (∀ key g, actorCurvesByMoviePair st' !! key = Some g →
         NoDup g.2 ∧ ∀ r, r ∈ g.2 → r < length (store st')).
Proof. exact (layout_index_partition exampleCast exampleCast_resolves). Defined.

(** X9: when every movie reference resolves, a curve of the layout holds
    two curves if and only if the group of the movie-pair map that holds it
    holds at least two curves: the curves that share their pair of movies with
    another curve are the ones split, every other curve is the single curve it
    was built as. *)
Theorem layout_split_iff_shared (model : Model) :
  Forall moviesResolve (getActors model) →
  ∃ st', layout model = Some st'
    ∧ ∀ r ac, store st' !! r = Some ac →
        (is_Some (getSecondCurve ac)
         ↔ ∃ key g, actorCurvesByMoviePair st' !! key = Some g
                    ∧ r ∈ g.2 ∧ 2 ≤ length g.2).
Proof.
  intros Hres.
  destruct (built_run model Hres)
    as (st1 & st' & Hrun1 & Hwf & _ & Hone & Hrun & Hlay).
  destruct (divergeOverlappingCurves_run st1 Hwf) as (st'' & Hrun' & Hsame & _).
  rewrite Hrun in Hrun'. injection Hrun' as <-.
  destruct Hsame as (_ & _ & Hp & _).
  exists st'. split; [done|]. rewrite Hp.
  intros r ac Hac.
  destruct (resolver_cell st1 st' r Hwf Hrun)
    as [[Hkeep Hfew]|(key & g & i & ac0 & Hg & Hlen & Hi & Hac0 & Hnew)].
  - rewrite Hkeep in Hac. rewrite (Hone _ _ Hac). split.
    + by intros [? ?].
    + intros (key & g & Hg & Hin & Hlen). specialize (Hfew _ _ Hg Hin). lia.
  - rewrite Hac in Hnew. injection Hnew as ->. split.
    + intros _. exists key, g. split_and!; [done| |done].
      by eapply list_elem_of_lookup_2.
    + intros _. cbn. eauto.
Qed.

Lemma layout_split_iff_shared_witness :
  ∃ st', layout exampleCast = Some st'
    ∧ ∀ r ac, store st' !! r = Some ac →
        (is_Some (getSecondCurve ac)
         ↔ ∃ key g, actorCurvesByMoviePair st' !! key = Some g
                    ∧ r ∈ g.2 ∧ 2 ≤ length g.2).
Proof. exact (layout_split_iff_shared exampleCast exampleCast_resolves). Defined.

(** ** What the resolver leaves alone *)

(** X10: on a well-formed provider the resolver ends, and it rewrites
    curves in place only: the table of positions, the two index maps and the
    number of curves are as they were, every curve still belongs to its actor
    and still starts at the same point, and a curve that held one curve still
    ends at the same point, whether split and moved or not. *)
Theorem resolver_frame (st : DefaultLayoutProvider) :
  wf st →
  ∃ st',
    divergeOverlappingCurves st = Some (tt, st')
    ∧ sameIndex st st'
    ∧ ∀ r ac, store st !! r = Some ac →
        ∃ ac', store st' !! r = Some ac'
          ∧ getActor ac' = getActor ac
          ∧ getP0 (getFirstCurve ac') = getP0 (getFirstCurve ac)
          ∧ (getSecondCurve ac = None → lastPoint ac' = lastPoint ac).
Proof.
  intros Hwf.
  destruct (divergeOverlappingCurves_run st Hwf) as (st' & Hrun & Hsame & _).
  exists st'. split_and!; [done|done|].
  intros r ac Hac.
  destruct (resolver_cell st st' r Hwf Hrun)
    as [[Hkeep _]|(key & g & i & ac0 & _ & _ & _ & Hac0 & Hnew)].
  - exists ac. by rewrite Hkeep.
  - rewrite Hac in Hac0. injection Hac0 as <-.
    eexists. split; [exact Hnew|]. split_and!; [done|done|].
    unfold lastPoint. by intros ->.
Qed.

Lemma resolver_frame_witness :
  ∃ st',
    divergeOverlappingCurves exampleBuilt = Some (tt, st')
    ∧ sameIndex exampleBuilt st'
    ∧ ∀ r ac, store exampleBuilt !! r = Some ac →
        ∃ ac', store st' !! r = Some ac'
          ∧ getActor ac' = getActor ac
          ∧ getP0 (getFirstCurve ac') = getP0 (getFirstCurve ac)
          ∧ (getSecondCurve ac = None → lastPoint ac' = lastPoint ac).
Proof. exact (resolver_frame exampleBuilt exampleBuilt_wf). Defined.

(** ** The curves of a walk *)

Lemma moviePoint_weaken (st st' : DefaultLayoutProvider) (m : Movie) (x : double) :
  directorXPositions st !! getDirector m = Some x →
  directorXPositions st ⊆ directorXPositions st' →
  moviePoint st' m = Point3d.mk x (getDateYPosition (getReleaseDate m)) 0%float.
Proof.
  intros Hx Hsub. unfold moviePoint. by rewrite (lookup_weaken _ _ _ _ Hx Hsub).
Qed.

(** The curve of every step of the walk, with the points as the table of the
    provider has them at the end. *)
Lemma walkMovies_curves (actor : PersonId) (last : Movie) (rest : list Movie) :
  ∀ (lastAnchor : Point3d.t) (st st' : DefaultLayoutProvider),
  walkMovies actor 0%float last lastAnchor (Some <$> rest) st = Some (tt, st') →
  ∀ i m p, rest !! i = Some m →
    (lastAnchor :: (moviePoint st' <$> rest)) !! i = Some p →
    store st' !! (length (store st) + i)
    = Some (newActorCurve actor (stepCurve (sameDirector last m) p (moviePoint st' m))).
Proof.
  induction rest as [|m0 rest IH]; intros lastAnchor st st' Hrun i m p Hi Hp; [done|].
  rewrite fmap_cons, walkMovies_cons in Hrun.
  destruct (getMoviePoint_run m0 0%float st) as (x & st1 & E & _ & Hx & _ & _ & _ & Hs).
  rewrite E in Hrun.
  pose proof (walkMovies_extends _ _ _ _ _ _ _ Hrun) as (Hsub & Hpre & _).
  cbn [registered directorXPositions store] in Hsub, Hpre.
  pose proof (moviePoint_weaken _ _ _ _ Hx Hsub) as Hm0.
  destruct i as [|i]; cbn in Hi, Hp.
  - injection Hi as <-. injection Hp as <-. rewrite Nat.add_0_r, Hm0.
    eapply prefix_lookup_Some; [|exact Hpre].
    rewrite Hs. by rewrite lookup_app_r, Nat.sub_diag.
  - rewrite Hm0 in Hp. specialize (IH _ _ _ Hrun i m p Hi Hp).
    cbn [registered store] in IH. rewrite length_app, Hs in IH. cbn in IH.
    by replace (length (store st) + S i) with (length (store st) + 1 + i) by lia.
Qed.

(** X11: the walk of an actor whose movie references resolve goes through
    the actor's movies in some order, and its curves join them one after the
    other: with the points taken where the layout has them at the end, the
    curve of step [i] starts at the point of the movie at index [i] and ends at
    the point of the next one, where the curve of step [i+1] starts. The first
    movie of the walk stays the one the walk compares directors with and
    registers the curve with, under its pair with the movie the step ends
    at. *)
Theorem actor_curves_join (actor : Person) (st : DefaultLayoutProvider) :
  moviesResolve actor →
  ∃ st' walked,
    initActorCurves actor st = Some (tt, st')
    ∧ Some <$> walked ≡ₚ getMoviesStarredIn actor
    ∧ ∀ i first a b,
        walked !! 0 = Some first → walked !! i = Some a → walked !! S i = Some b →
        store st' !! (length (store st) + i)
        = Some (newActorCurve (personId actor)
                  (stepCurve (sameDirector first b) (moviePoint st' a) (moviePoint st' b)))
        ∧ ∃ g, actorCurvesByMoviePair st' !! pairKey (mkMoviePair first b) = Some g
               ∧ length (store st) + i ∈ g.2.
Proof.
  intros [ms Hms]%Forall_is_Some_fmap. unfold initActorCurves.
  rewrite Hms, length_fmap.
  destruct (sortMovies_resolved ms) as (ms' & -> & Hperm).
  rewrite <- (Permutation_length Hperm).
  destruct ms' as [|first rest]; cbn [length Nat.eqb].
  - exists st, []. split_and!; [done|by rewrite <- Hperm|done].
  - rewrite fmap_cons. unfold bind at 1.
    destruct (getMoviePoint_run first 0%float st)
      as (x & st1 & -> & _ & Hx & _ & _ & _ & Hs).
    destruct (walkMovies_run (personId actor) 0%float first rest
                (Point3d.mk x (getDateYPosition (getReleaseDate first)) 0%float) st1)
      as (st' & Hrun & Hsub & _ & _ & _ & _ & Hreg & _).
    exists st', (first :: rest). split_and!; [done|by rewrite <- Hperm|].
    intros i f a b [= <-] Ha Hb. cbn in Hb. rewrite <- Hs. split.
    + eapply walkMovies_curves; [exact Hrun|exact Hb|].
      rewrite <- (moviePoint_weaken _ _ _ _ Hx Hsub), <- fmap_cons.
      by rewrite list_lookup_fmap, Ha.
    + by apply Hreg.
Qed.

Lemma actor_curves_join_witness :
  ∃ st' walked,
    initActorCurves actorE exampleBuilt = Some (tt, st')
    ∧ Some <$> walked ≡ₚ getMoviesStarredIn actorE
    ∧ ∀ i first a b,
        walked !! 0 = Some first → walked !! i = Some a → walked !! S i = Some b →
        store st' !! (length (store exampleBuilt) + i)
        = Some (newActorCurve (personId actorE)
                  (stepCurve (sameDirector first b) (moviePoint st' a) (moviePoint st' b)))
        ∧ ∃ g, actorCurvesByMoviePair st' !! pairKey (mkMoviePair first b) = Some g
               ∧ length (store exampleBuilt) + i ∈ g.2.
Proof.
  apply (actor_curves_join actorE exampleBuilt).
  unfold moviesResolve. cbn. repeat constructor; eauto.
Defined.

(** ** The handles of a curve *)

(** X12: whatever the two anchors and whether or not the step is dampened,
    the two handles of a step's curve differ from their anchors along the date
    axis only, by one and the same delta, added at the first anchor and
    subtracted at the second, and the magnitude of that delta is at most
    [MAX_DELTA], for every double the difference of the anchors can be,
    infinities and not-a-number included. *)
Theorem step_handles_bounded (damp : bool) (lastAnchor anchor : Point3d.t) :
  ∃ delta,
    PrimFloat.leb (PrimFloat.abs delta) MAX_DELTA = true
    ∧ stepCurve damp lastAnchor anchor
      = mkBezierCurve lastAnchor
          (Point3d.mk (Point3d.x lastAnchor) (Point3d.y lastAnchor + delta)%float
                      (Point3d.z lastAnchor))
          (Point3d.mk (Point3d.x anchor) (Point3d.y anchor - delta)%float
                      (Point3d.z anchor))
          anchor.
Proof.
  assert (∀ d, PrimFloat.leb (PrimFloat.abs (clampDelta d)) MAX_DELTA = true) as Hclamp.
  { intros d. unfold clampDelta.
    destruct (PrimFloat.leb (PrimFloat.abs d) MAX_DELTA) eqn:E; [done|].
    unfold sign. by destruct (PrimFloat.ltb d 0), (PrimFloat.ltb 0 d); vm_compute. }
  eexists. split; [|apply stepCurve_handles]. apply Hclamp.
Qed.

(** ** The two sides of a group *)

Lemma binary_round_aux_opp (s : bool) (m e : Z) (l : location) :
  SFopp (binary_round_aux prec emax s m e l) = binary_round_aux prec emax (negb s) m e l.
Proof.
  unfold binary_round_aux.
  destruct (shr_fexp _ _ _ _ _) as [mrs e'].
  destruct (shr_fexp _ _ _ _ _) as [mrs' e''].
  destruct (shr_m mrs'); [done| |done].
  by destruct (Z.leb _ _).
Qed.

Lemma SF64mul_opp_r (a : spec_float) (m : positive) (e : Z) :
  SF64mul a (S754_finite true m e) = SFopp (SF64mul a (S754_finite false m e)).
Proof.
  unfold SF64mul, SFmul. destruct a as [s|s| |s ma ea]; [by destruct s..|done|].
  rewrite binary_round_aux_opp. by destruct s.
Qed.

Lemma float_mul_minus_one (a : float) : (a * -1.0)%float = (- (a * 1.0))%float.
Proof.
  apply Prim2SF_inj. rewrite opp_spec, !mul_spec.
  replace (Prim2SF (-1.0)) with (S754_finite true 4503599627370496 (-52))
    by (vm_compute; reflexivity).
  replace (Prim2SF 1.0) with (S754_finite false 4503599627370496 (-52))
    by (vm_compute; reflexivity).
  apply SF64mul_opp_r.
Qed.

(** X13: after the curve at index 0, which is not moved, the curves of a
    group are moved in pairs: for [k] from 1 on, the curves at indices [2k - 1]
    and [2k] are given opposite offsets, [k * 0.05] on the positive side of the
    direction for the odd index and the same amount on the negative side for
    the even one (indices within the range of [unsigned int]). *)
Theorem offsets_come_in_pairs (k : Z) :
  (1 ≤ k)%Z → (2 * k < UINT_MAX1)%Z →
  offsetAmount (2 * k - 1) = (of_uint k * offsetIncrement * 1.0)%float
  ∧ offsetAmount (2 * k) = (- offsetAmount (2 * k - 1))%float.
Proof.
  unfold UINT_MAX1. change (2 ^ 32)%Z with 4294967296%Z. intros Hk Hmax.
  assert (offsetAmount (2 * k - 1) = (of_uint k * offsetIncrement * 1.0)%float) as Hodd.
  { unfold offsetAmount, UINT_MAX1. change (2 ^ 32)%Z with 4294967296%Z.
    destruct (Z.eqb_spec (2 * k - 1) 0) as [|_]; [lia|].
    replace ((2 * k - 1 + 1) mod 4294967296 / 2)%Z with k
      by (Z.to_euclidean_division_equations; lia).
    destruct (Z.eqb_spec ((2 * k - 1) mod 2) 0) as [Hm|_]; [|done].
    exfalso. revert Hm. Z.to_euclidean_division_equations. lia. }
  split; [done|]. rewrite Hodd. rewrite <- float_mul_minus_one.
  unfold offsetAmount, UINT_MAX1. change (2 ^ 32)%Z with 4294967296%Z.
  destruct (Z.eqb_spec (2 * k) 0) as [|_]; [lia|].
  replace ((2 * k + 1) mod 4294967296 / 2)%Z with k
    by (Z.to_euclidean_division_equations; lia).
  destruct (Z.eqb_spec ((2 * k) mod 2) 0) as [_|Hm]; [done|].
  exfalso. revert Hm. Z.to_euclidean_division_equations. lia.
Qed.

Lemma offsets_come_in_pairs_witness :
  offsetAmount (2 * 3 - 1) = (of_uint 3 * offsetIncrement * 1.0)%float
  ∧ offsetAmount (2 * 3) = (- offsetAmount (2 * 3 - 1))%float.
Proof. apply (offsets_come_in_pairs 3); unfold UINT_MAX1; lia. Defined.

(** ** The directors of a layout *)

Lemma getMoviePoint_domain (m : Movie) (z : double) (p : Point3d.t)
    (st st' : DefaultLayoutProvider) (d : option PersonId) :
  getMoviePoint (Some m) z st = Some (p, st') →
  is_Some (directorXPositions st' !! d)
  ↔ is_Some (directorXPositions st !! d) ∨ d = getDirector m.
Proof.
  unfold getMoviePoint, bind, ret.
  destruct (directorXPositions st !! getDirector m) as [x|] eqn:E.
  - rewrite (getDirectorXPosition_assigned _ _ _ E). intros [= _ <-].
    split; [by left|]. intros [?| ->]; [done|]. by rewrite E.
  - rewrite (getDirectorXPosition_fresh _ _ E). intros [= _ <-]. cbn.
    rewrite lookup_insert_is_Some.
    destruct (decide (getDirector m = d)) as [<-|]; [|intuition congruence].
    split; [by right|by left].
Qed.

Lemma walkMovies_domain (actor : PersonId) (z : double) (last : Movie)
    (rest : list Movie) (d : option PersonId) :
  ∀ (lastAnchor : Point3d.t) (st st' : DefaultLayoutProvider),
  walkMovies actor z last lastAnchor (Some <$> rest) st = Some (tt, st') →
  is_Some (directorXPositions st' !! d)
  ↔ is_Some (directorXPositions st !! d) ∨ d ∈ getDirector <$> rest.
Proof.
  induction rest as [|m rest IH]; intros lastAnchor st st'.
  - intros [= <-]. cbn. split; [by left|]. by intros [ |?%elem_of_nil].
  - rewrite fmap_cons, walkMovies_cons.
    destruct (getMoviePoint (Some m) z st) as [[anchor st1]|] eqn:E; [|done].
    intros Hrun%IH. rewrite Hrun. cbn [registered directorXPositions].
    rewrite (getMoviePoint_domain _ _ _ _ _ _ E), fmap_cons, elem_of_cons. tauto.
Qed.

Lemma initActorCurves_domain (actor : Person) (ms : list Movie)
    (st st' : DefaultLayoutProvider) (d : option PersonId) :
  getMoviesStarredIn actor = Some <$> ms →
  initActorCurves actor st = Some (tt, st') →
  is_Some (directorXPositions st' !! d)
  ↔ is_Some (directorXPositions st !! d) ∨ d ∈ getDirector <$> ms.
Proof.
  intros Hms. unfold initActorCurves. rewrite Hms, length_fmap.
  destruct (sortMovies_resolved ms) as (ms' & -> & Hperm).
  assert (d ∈ getDirector <$> ms ↔ d ∈ getDirector <$> ms') as ->.
  { by rewrite Hperm. }
  rewrite <- (Permutation_length Hperm).
  destruct ms' as [|first rest]; cbn [length Nat.eqb].
  - intros [= <-]. split; [by left|]. by intros [ |?%elem_of_nil].
  - rewrite fmap_cons. unfold bind at 1.
    destruct (getMoviePoint (Some first) 0 st) as [[anchor st1]|] eqn:E; [|done].
    intros Hrun%(walkMovies_domain _ _ _ _ d). rewrite Hrun.
    rewrite (getMoviePoint_domain _ _ _ _ _ _ E), fmap_cons, elem_of_cons. tauto.
Qed.

Lemma initActors_domain (actors : list Person) (d : option PersonId) :
  Forall moviesResolve actors →
  ∀ st st' : DefaultLayoutProvider,
  initActors actors st = Some (tt, st') →
  is_Some (directorXPositions st' !! d)
  ↔ is_Some (directorXPositions st !! d)
    ∨ ∃ p m, p ∈ actors ∧ Some m ∈ getMoviesStarredIn p ∧ getDirector m = d.
Proof.
  induction 1 as [|actor actors Hres _ IH]; intros st st'.
  - intros [= <-]. split; [by left|]. intros [ |(p & _ & []%elem_of_nil & _)]. done.
  - apply Forall_is_Some_fmap in Hres as [ms Hms].
    cbn [initActors]. unfold bind.
    destruct (initActorCurves actor st) as [[[] st1]|] eqn:E; [|done].
    intros Hrun%IH. rewrite Hrun, (initActorCurves_domain _ _ _ _ _ Hms E).
    split.
    + intros [[|Hd]|(p & m & Hp & Hm & Hd)]; [by left| |].
      * right. apply list_elem_of_fmap in Hd as (m & -> & Hm).
        exists actor, m. split_and!; [by left| |done].
        rewrite Hms. apply list_elem_of_fmap. eauto.
      * right. exists p, m. split_and!; [by right|done..].
    + intros [ |(p & m & [->|Hp]%elem_of_cons & Hm & Hd)]; [by left; left| |].
      * left. right. rewrite Hms in Hm.
        apply list_elem_of_fmap in Hm as (m' & [= ->] & Hm).
        apply list_elem_of_fmap. eauto.
      * right. eauto.
Qed.

(** X14: when every movie reference resolves, the table of the layout holds
    the directors of the movies the actors of the model starred in, and no
    other (the null director among them when a director reference has
    expired). The point of each of these movies is then read off the layout as
    it is: [getMoviePoint] returns the director's position and the date's, and
    leaves the provider unchanged. *)
Theorem layout_directors (model : Model) :
  Forall moviesResolve (getActors model) →
  ∃ st', layout model = Some st'
    ∧ (∀ d, is_Some (directorXPositions st' !! d)
            ↔ ∃ p m, p ∈ getActors model ∧ Some m ∈ getMoviesStarredIn p
                     ∧ getDirector m = d)
    ∧ (∀ p m z, p ∈ getActors model → Some m ∈ getMoviesStarredIn p →
         ∃ x, directorXPositions st' !! getDirector m = Some x
              ∧ getMoviePoint (Some m) z st'
                = Some (Point3d.mk x (getDateYPosition (getReleaseDate m)) z, st')).
Proof.
  intros Hres.
  destruct (built_run model Hres) as (st1 & st' & Hrun1 & Hwf & _ & _ & Hrun & Hlay).
  destruct (divergeOverlappingCurves_run st1 Hwf) as (st'' & Hrun' & Hsame & _).
  rewrite Hrun in Hrun'. injection Hrun' as <-.
  destruct Hsame as (Hd & _).
  assert (Hdom : ∀ d, is_Some (directorXPositions st' !! d)
            ↔ ∃ p m, p ∈ getActors model ∧ Some m ∈ getMoviesStarredIn p
                     ∧ getDirector m = d).
  { intros d. rewrite Hd, (initActors_domain _ d Hres _ _ Hrun1). cbn.
    rewrite lookup_empty. split; [|by right]. by intros [[? ?]|]. }
  exists st'. split_and!; [done|done|].
  intros p m z Hp Hm.
  destruct (proj2 (Hdom (getDirector m))) as [x Hx]; [by eauto|].
  exists x. split; [done|]. by apply getMoviePoint_assigned.
Qed.

Lemma layout_directors_witness :
  ∃ st', layout exampleCast = Some st'
    ∧ (∀ d, is_Some (directorXPositions st' !! d)
            ↔ ∃ p m, p ∈ getActors exampleCast ∧ Some m ∈ getMoviesStarredIn p
                     ∧ getDirector m = d)
    ∧ (∀ p m z, p ∈ getActors exampleCast → Some m ∈ getMoviesStarredIn p →
         ∃ x, directorXPositions st' !! getDirector m = Some x
              ∧ getMoviePoint (Some m) z st'
                = Some (Point3d.mk x (getDateYPosition (getReleaseDate m)) z, st')).
Proof. exact (layout_directors exampleCast exampleCast_resolves). Defined.
